(** * munkey-rpc/build.py: the protobuf build wrapper

    A shallow embedding of [lib/munkey-rpc/build.py] together with the part of
    Python's standard library the script leans on ([str], [pathlib],
    [os.mkdir], [subprocess.check_call], exceptions), followed by the
    properties of the script.

    Layout:
    - [pystr]    the [str] methods used by pathlib;
    - [pathlib]  pure paths of both flavours, [resolve], [mkdir];
    - [build]    the script itself: [extend_paths], [main], the entry point;
    - the theorems. *)

From Stdlib Require Import ZArith Ascii String.
From stdpp Require Import gmap strings list.

(* ===================================================================== *)
(** * Python strings *)
(* ===================================================================== *)

Module pystr.

(** [s[:n]] and [s[n:]]. *)
Definition upto (n : nat) (s : string) : string := String.substring 0 n s.
Definition from (n : nat) (s : string) : string :=
  String.substring n (String.length s - n) s.

(** [s[i:i+1]]: the character at [i] as a string, empty out of range. *)
Definition at1 (i : nat) (s : string) : string := String.substring i 1 s.

(** [s.startswith(p)]. *)
Definition startswith (p s : string) : bool := String.prefix p s.

(** [s.find(sub, start)], [None] standing for -1. *)
Definition find (sub : string) (start : nat) (s : string) : option nat :=
  String.index start sub s.

(** [c in s] for a one-character [c]. *)
Fixpoint contains (c : ascii) (s : string) : bool :=
  match s with
  | EmptyString => false
  | String d s' => Ascii.eqb c d || contains c s'
  end.

(** [s.replace(a, b)] for one-character [a] and [b]. *)
Fixpoint replace (a b : ascii) (s : string) : string :=
  match s with
  | EmptyString => EmptyString
  | String c s' => String (if Ascii.eqb c a then b else c) (replace a b s')
  end.

(** [s.lstrip(c)]. *)
Fixpoint lstrip (c : ascii) (s : string) : string :=
  match s with
  | String d s' => if Ascii.eqb d c then lstrip c s' else s
  | EmptyString => EmptyString
  end.

(** [s.split(sep)]: always at least one field; adjacent separators give
    empty fields. *)
Fixpoint split (sep : ascii) (s : string) : list string :=
  match s with
  | EmptyString => [EmptyString]
  | String c s' =>
      if Ascii.eqb c sep then EmptyString :: split sep s'
      else match split sep s' with
           | w :: ws => String c w :: ws
           | [] => [String c EmptyString]
           end
  end.

(** [sep.join(l)]. *)
Definition join (sep : string) (l : list string) : string :=
  String.concat sep l.

(** [s.rfind(c)], [None] standing for -1. *)
Fixpoint rfind (c : ascii) (s : string) : option nat :=
  match s with
  | EmptyString => None
  | String d s' =>
      match rfind c s' with
      | Some i => Some (S i)
      | None => if Ascii.eqb d c then Some 0 else None
      end
  end.

(** [s.lower()] on ASCII letters. *)
Definition lower_ascii (c : ascii) : ascii :=
  let n := nat_of_ascii c in
  if (65 <=? n)%nat && (n <=? 90)%nat then ascii_of_nat (n + 32) else c.

Fixpoint lower (s : string) : string :=
  match s with
  | EmptyString => EmptyString
  | String c s' => String (lower_ascii c) (lower s')
  end.

Definition is_letter (c : ascii) : bool :=
  let n := nat_of_ascii (lower_ascii c) in (97 <=? n)%nat && (n <=? 122)%nat.

(** Truthiness of a string: [bool(s)]. *)
Definition nonempty (s : string) : bool :=
  match s with EmptyString => false | String _ _ => true end.

End pystr.

(* ===================================================================== *)
(** * Exceptions *)
(* ===================================================================== *)

(** The subclasses of [OSError] that the modelled system calls raise. *)
Inductive os_error :=
| FileNotFoundError
| FileExistsError
| NotADirectoryError
| PermissionError.

(** The exceptions that can travel through the script. [CalledProcessError]
    carries its [returncode] and [cmd] attributes. *)
Inductive exn :=
| OSError (e : os_error)
| ValueError (msg : string)
| CalledProcessError (returncode : Z) (cmd : list string).

(** The outcome of a computation that may raise. *)
Inductive result (A : Type) :=
| Ok (a : A)
| Raise (e : exn).
Arguments Ok {A} a.
Arguments Raise {A} e.

#[export] Instance os_error_eq_dec : EqDecision os_error.
Proof. solve_decision. Defined.

#[export] Instance exn_eq_dec : EqDecision exn.
Proof. solve_decision. Defined.


(* ===================================================================== *)
(** * pathlib: pure paths *)
(* ===================================================================== *)

Module pathlib.

(** [pathlib.Path] instantiates [WindowsPath] when [os.name == 'nt'] and
    [PosixPath] otherwise. *)
Inductive flavour := PosixFlavour | WindowsFlavour.

Definition flavour_of (os_name : string) : flavour :=
  if String.eqb os_name "nt" then WindowsFlavour else PosixFlavour.

Definition sep (fl : flavour) : ascii :=
  match fl with PosixFlavour => "/"%char | WindowsFlavour => "\"%char end.

Definition sep_str (fl : flavour) : string := String (sep fl) EmptyString.

Definition altsep (fl : flavour) : option ascii :=
  match fl with PosixFlavour => None | WindowsFlavour => Some "/"%char end.

Definition has_drv (fl : flavour) : bool :=
  match fl with PosixFlavour => false | WindowsFlavour => true end.

Definition casefold (fl : flavour) (s : string) : string :=
  match fl with PosixFlavour => s | WindowsFlavour => pystr.lower s end.

(** A parsed path: drive, root and the components after the anchor
    (pathlib's [_drv], [_root] and [_parts] without its anchor entry). *)
Record path := mkpath { drv : string; root : string; tail : list string }.

#[export] Instance path_eq_dec : EqDecision path.
Proof. solve_decision. Defined.

Definition anchor (p : path) : string := drv p +:+ root p.

(** [p.parts]: the anchor, when there is one, then the components. *)
Definition parts (p : path) : list string :=
  if pystr.nonempty (anchor p) then anchor p :: tail p else tail p.

(** [_PosixFlavour.splitroot]. *)
Definition posix_splitroot (part : string) : string * string * string :=
  if pystr.startswith "/" part then
    let stripped_part := pystr.lstrip "/"%char part in
    if (String.length part - String.length stripped_part =? 2)%nat
    then ("", "//", stripped_part)
    else ("", "/", stripped_part)
  else ("", "", part).

(** [_WindowsFlavour._split_extended_path]. *)
Definition split_extended_path (s : string) : string * string :=
  if pystr.startswith "\\?\" s then
    let prefix := pystr.upto 4 s in
    let s := pystr.from 4 s in
    if pystr.startswith "UNC\" s
    then (prefix +:+ pystr.upto 3 s, "\" +:+ pystr.from 3 s)
    else (prefix, s)
  else ("", s).

Definition is_drive_letter (s : string) : bool :=
  match s with
  | String c EmptyString => pystr.is_letter c
  | _ => false
  end.

(** [_WindowsFlavour.splitroot]; [part] already has [/] replaced by [\]. *)
Definition windows_splitroot (part : string) : string * string * string :=
  let first := pystr.at1 0 part in
  let second := pystr.at1 1 part in
  let '(prefix, part) :=
    if String.eqb second "\" && String.eqb first "\"
    then split_extended_path part else ("", part) in
  let first := pystr.at1 0 part in
  let second := pystr.at1 1 part in
  let third := pystr.at1 2 part in
  let plain :=
    let '(drv, part, first) :=
      if String.eqb second ":" && is_drive_letter first
      then (pystr.upto 2 part, pystr.from 2 part, third)
      else ("", part, first) in
    if String.eqb first "\"
    then (prefix +:+ drv, "\", pystr.lstrip "\"%char part)
    else (prefix +:+ drv, "", part) in
  if String.eqb second "\" && String.eqb first "\" && negb (String.eqb third "\")
  then
    match pystr.find "\" 2 part with
    | Some index =>
        let index2 := pystr.find "\" (index + 1) part in
        if bool_decide (index2 = Some (index + 1)%nat) then plain
        else
          let index2 := default (String.length part) index2 in
          if pystr.nonempty prefix
          then (prefix +:+ String.substring 1 (index2 - 1) part, "\",
                pystr.from (index2 + 1) part)
          else (pystr.upto index2 part, "\", pystr.from (index2 + 1) part)
    | None => plain
    end
  else plain.

Definition splitroot (fl : flavour) (part : string) : string * string * string :=
  match fl with
  | PosixFlavour => posix_splitroot part
  | WindowsFlavour => windows_splitroot part
  end.

(** Replacement of the alternative separator, as [parse_parts] does first. *)
Definition norm_sep (fl : flavour) (part : string) : string :=
  match altsep fl with
  | Some a => pystr.replace a (sep fl) part
  | None => part
  end.

(** The components of [rel]: its fields other than [''] and ['.']. *)
Definition components (fl : flavour) (rel : string) : list string :=
  filter (fun x => x ≠ "" ∧ x ≠ ".") (pystr.split (sep fl) rel).

(** [_Flavour.parse_parts] walks its arguments from the last one backwards
    and stops at the first anchored one; when that one has a root but no
    drive it searches the earlier arguments for a drive. Both functions
    take the arguments in reversed order. *)
Fixpoint find_drive (fl : flavour) (rparts : list string) : string :=
  match rparts with
  | [] => ""
  | part :: rest =>
      if pystr.nonempty part then
        let d := (splitroot fl (norm_sep fl part)).1.1 in
        if pystr.nonempty d then d else find_drive fl rest
      else find_drive fl rest
  end.

Fixpoint parse_rev (fl : flavour) (rparts : list string) : path :=
  match rparts with
  | [] => mkpath "" "" []
  | part :: rest =>
      if pystr.nonempty part then
        let '(d, r, rel) := splitroot fl (norm_sep fl part) in
        let comps := components fl rel in
        if pystr.nonempty d || pystr.nonempty r then
          mkpath (if pystr.nonempty d then d else find_drive fl rest) r comps
        else
          let p := parse_rev fl rest in
          mkpath (drv p) (root p) (tail p ++ comps)
      else parse_rev fl rest
  end.

Definition parse_parts (fl : flavour) (args : list string) : path :=
  parse_rev fl (rev args).

(** [_Flavour.join_parsed_parts]. *)
Definition join_parsed_parts (fl : flavour) (p p2 : path) : path :=
  if pystr.nonempty (root p2) then
    if negb (pystr.nonempty (drv p2)) && pystr.nonempty (drv p)
    then mkpath (drv p) (root p2) (tail p2)
    else p2
  else if pystr.nonempty (drv p2) then
    if String.eqb (casefold fl (drv p2)) (casefold fl (drv p))
    then mkpath (drv p) (root p) (tail p ++ tail p2)
    else p2
  else mkpath (drv p) (root p) (tail p ++ tail p2).

(** [pathlib.Path(s)]. *)
Definition Path (fl : flavour) (s : string) : path := parse_parts fl [s].

(** [p.joinpath( *args )]. *)
Definition joinpath (fl : flavour) (p : path) (args : list string) : path :=
  join_parsed_parts fl p (parse_parts fl args).

(** [str(p)], which is also what an f-string interpolates. *)
Definition str (fl : flavour) (p : path) : string :=
  let s := anchor p +:+ pystr.join (sep_str fl) (tail p) in
  if pystr.nonempty s then s else ".".

(** [p.is_absolute()]. *)
Definition is_absolute (fl : flavour) (p : path) : bool :=
  pystr.nonempty (root p) && (negb (has_drv fl) || pystr.nonempty (drv p)).

(** [p.name]: the final component, [''] when there is none. *)
Definition name (p : path) : string := List.last (tail p) "".

(** [p.suffix]: from the last dot of the name, unless that dot is the first
    or the last character. *)
Definition suffix_of (nm : string) : string :=
  match pystr.rfind "."%char nm with
  | Some i =>
      if (0 <? i)%nat && (i <? String.length nm - 1)%nat
      then pystr.from i nm else ""
  | None => ""
  end.

Definition suffix (p : path) : string := suffix_of (name p).

(** [p.parent]: the path without its final component; a path with no
    component is its own parent. *)
Definition parent (p : path) : path :=
  mkpath (drv p) (root p) (removelast (tail p)).

(** [p.with_suffix(suffix)]. *)
Definition with_suffix (fl : flavour) (p : path) (sfx : string) : result path :=
  if pystr.contains (sep fl) sfx
     || match altsep fl with Some a => pystr.contains a sfx | None => false end
  then Raise (ValueError "Invalid suffix")
  else if pystr.nonempty sfx && negb (pystr.startswith "." sfx)
          || String.eqb sfx "."
  then Raise (ValueError "Invalid suffix")
  else
    let nm := name p in
    if negb (pystr.nonempty nm) then Raise (ValueError "has an empty name")
    else
      let old_suffix := suffix p in
      let nm :=
        if negb (pystr.nonempty old_suffix) then nm +:+ sfx
        else pystr.upto (String.length nm - String.length old_suffix) nm +:+ sfx in
      Ok (mkpath (drv p) (root p) (removelast (tail p) ++ [nm])).

(** ** Concrete paths: the working directory and the filesystem

    The filesystem holds directories and regular files only, keyed by the
    [parts] of their absolute location, so it has no symbolic links, and its
    names are compared exactly. A directory records whether entries may be
    created in it. *)
Inductive node := Dir (writable : bool) | File.

#[export] Instance node_eq_dec : EqDecision node.
Proof. solve_decision. Defined.

Abbreviation filesystem := (gmap (list string) node).

(** The absolute location that the operating system takes [p] to denote in a
    process whose working directory is [cwd]. On Windows a path with a root
    but no drive takes the drive of [cwd], and a path with a drive but no
    root is relative to [cwd] when it names the drive of [cwd] and to the
    root of its own drive otherwise. Nothing is normalised. *)
Definition fullpath (fl : flavour) (cwd p : path) : path :=
  match fl with
  | PosixFlavour =>
      if pystr.nonempty (root p) then p
      else mkpath "" (root cwd) (tail cwd ++ tail p)
  | WindowsFlavour =>
      if pystr.nonempty (root p) then
        if pystr.nonempty (drv p) then p
        else mkpath (drv cwd) (root p) (tail p)
      else if negb (pystr.nonempty (drv p))
              || String.eqb (casefold fl (drv p)) (casefold fl (drv cwd))
      then mkpath (drv cwd) (root cwd) (tail cwd ++ tail p)
      else mkpath (drv p) "\" (tail p)
  end.

(** Lexical normalisation of a component list against a stack of already
    normalised components (innermost first): [''] and ['.'] vanish, ['..']
    removes the component before it and stays put at the root. *)
Fixpoint normalize (stack comps : list string) : list string :=
  match comps with
  | [] => rev stack
  | c :: cs =>
      if bool_decide (c = "") || bool_decide (c = ".") then normalize stack cs
      else if bool_decide (c = "..") then normalize (List.tl stack) cs
      else normalize (c :: stack) cs
  end.

(** [p.resolve()] (non-strict): [os.path.realpath] followed by a parse. On a
    filesystem without symbolic links this is the full path, normalised; the
    POSIX form of an absolute path always has the root [/]. The filesystems
    of this development hold no symbolic links, so no link is ever followed
    and the [RuntimeError] that [resolve] raises on a loop of links does not
    occur; statements that depend on this say so. *)
Definition resolve (fl : flavour) (cwd p : path) : path :=
  let a := fullpath fl cwd p in
  let r := match fl with
           | PosixFlavour => if pystr.nonempty (root p) then "/" else root a
           | WindowsFlavour => root a
           end in
  mkpath (drv a) r (normalize [] (tail a)).

(** The key under which the filesystem holds [p]. *)
Definition fs_key (fl : flavour) (cwd p : path) : list string :=
  parts (fullpath fl cwd p).

(** [p.is_dir()]. *)
Definition is_dir (fl : flavour) (cwd : path) (fs : filesystem) (p : path) : bool :=
  match fs !! fs_key fl cwd p with
  | Some (Dir _) => true
  | _ => false
  end.

(** [os.mkdir(p)]: the entry must be new and its parent an existing
    directory in which entries may be created. *)
Definition os_mkdir (fl : flavour) (cwd : path) (p : path) (fs : filesystem)
  : result filesystem :=
  match fs !! fs_key fl cwd p with
  | Some _ => Raise (OSError FileExistsError)
  | None =>
      match fs !! fs_key fl cwd (parent p) with
      | None => Raise (OSError FileNotFoundError)
      | Some File => Raise (OSError NotADirectoryError)
      | Some (Dir false) => Raise (OSError PermissionError)
      | Some (Dir true) => Ok (<[fs_key fl cwd p := Dir true]> fs)
      end
  end.

(** [p.mkdir(parents=..., exist_ok=...)], by recursion on the components
    of [p] innermost first ([rtail] is the reversed [tail]); the recursive
    call is [self.parent.mkdir(parents=True, exist_ok=True)], and
    [mkdir_again] is the closing [self.mkdir(mode, parents=False, ...)]. *)
Definition mkdir_handle (fl : flavour) (cwd : path) (exist_ok : bool)
    (self : path) (fs : filesystem) (e : exn) : result filesystem :=
  if negb exist_ok || negb (is_dir fl cwd fs self) then Raise e else Ok fs.

Definition mkdir_again (fl : flavour) (cwd : path) (exist_ok : bool)
    (self : path) (fs : filesystem) : result filesystem :=
  match os_mkdir fl cwd self fs with
  | Ok fs' => Ok fs'
  | Raise (OSError FileNotFoundError) => Raise (OSError FileNotFoundError)
  | Raise e => mkdir_handle fl cwd exist_ok self fs e
  end.

Fixpoint mkdir_rec (fl : flavour) (cwd : path) (d r : string)
    (rtail : list string) (parents exist_ok : bool) (fs : filesystem)
  : result filesystem :=
  let self := mkpath d r (rev rtail) in
  match os_mkdir fl cwd self fs with
  | Ok fs' => Ok fs'
  | Raise (OSError FileNotFoundError) =>
      match rtail with
      | [] => Raise (OSError FileNotFoundError)
      | _ :: rparent =>
          if negb parents then Raise (OSError FileNotFoundError)
          else
            match mkdir_rec fl cwd d r rparent true true fs with
            | Ok fs1 => mkdir_again fl cwd exist_ok self fs1
            | Raise e => Raise e
            end
      end
  | Raise e => mkdir_handle fl cwd exist_ok self fs e
  end.

Definition mkdir (fl : flavour) (cwd : path) (p : path)
    (parents exist_ok : bool) (fs : filesystem) : result filesystem :=
  mkdir_rec fl cwd (drv p) (root p) (rev (tail p)) parents exist_ok fs.

End pathlib.

(* ===================================================================== *)
(** * The host, and computations with effects *)
(* ===================================================================== *)

Module os.
Import pathlib.

(** What starting a command does: the program cannot be started (the
    [OSError] of [Popen]), or it runs on the filesystem and exits. *)
Inductive proc_result :=
| Exited (returncode : Z) (fs' : filesystem)
| SpawnFailed (e : os_error).

(** The machine the script runs on: [os.name], the working directory of the
    process, and the behaviour of the programs it can start. *)
Record host := mkhost {
  name : string;
  cwd : path;
  exec : list string → filesystem → proc_result
}.

Definition path_flavour (h : host) : flavour := flavour_of (name h).

(** [os.getcwd()] is an absolute path. *)
Definition host_wf (h : host) : Prop :=
  is_absolute (path_flavour h) (cwd h) = true.

(** What the script does to the outside, in order of occurrence. *)
Inductive event :=
| Call (argv : list string)
| Print (e : exn).

Record world := mkworld { fs : filesystem; trace : list event }.

Definition emit (ev : event) (w : world) : world :=
  mkworld (fs w) (trace w ++ [ev]).

(** The argument lists handed to [check_call] so far. *)
Definition calls (w : world) : list (list string) :=
  omap (fun ev => match ev with Call argv => Some argv | Print _ => None end)
       (trace w).

Definition printed (w : world) : list exn :=
  omap (fun ev => match ev with Print e => Some e | Call _ => None end)
       (trace w).

End os.

(** Pure code that may raise. *)
#[export] Instance result_ret : MRet result := fun _ a => Ok a.
#[export] Instance result_bind : MBind result := fun _ _ f m =>
  match m with Ok a => f a | Raise e => Raise e end.

(** Code that may raise and acts on the world. *)
Definition M (A : Type) : Type := os.world → result A * os.world.

#[export] Instance M_ret : MRet M := fun _ a w => (Ok a, w).
#[export] Instance M_bind : MBind M := fun _ _ f m w =>
  match m w with
  | (Ok a, w') => f a w'
  | (Raise e, w') => (Raise e, w')
  end.

Definition lift {A} (r : result A) : M A := fun w => (r, w).

(** [try: body except <class> as err: handler]: [handler] is [None] on the
    exceptions the clause does not name. *)
Definition try_except {A} (body : M A) (handler : exn → option (M A)) : M A :=
  fun w =>
    match body w with
    | (Ok a, w') => (Ok a, w')
    | (Raise e, w') =>
        match handler e with
        | Some k => k w'
        | None => (Raise e, w')
        end
    end.

(** [print(err)]. *)
Definition print (e : exn) : M unit := fun w => (Ok tt, os.emit (os.Print e) w).

Module subprocess.
Import os.

(** [subprocess.check_call(argv)]: 0 when the command exits with status 0,
    [CalledProcessError] when it exits with another status; the [OSError]
    of a command that cannot be started passes through. *)
Definition check_call (h : host) (argv : list string) : M Z :=
  fun w =>
    let w1 := emit (Call argv) w in
    match exec h argv (fs w) with
    | SpawnFailed e => (Raise (OSError e), w1)
    | Exited retcode fs' =>
        let w2 := mkworld fs' (trace w1) in
        if (retcode =? 0)%Z then (Ok 0%Z, w2)
        else (Raise (CalledProcessError retcode argv), w2)
    end.

End subprocess.

(* ===================================================================== *)
(** * lib/munkey-rpc/build.py *)
(* ===================================================================== *)

Module build.
Import pathlib os subprocess.

(** [argparse.Namespace] with the one option of the parser. *)
Record Namespace := mkargs { out : string }.

Section script.
Variable h : host.

Let fl := path_flavour h.

(** [Path.mkdir] as an action on the world. *)
Definition Path_mkdir (p : path) (parents exist_ok : bool) : M unit :=
  fun w =>
    match mkdir fl (cwd h) p parents exist_ok (fs w) with
    | Ok fs' => (Ok tt, mkworld fs' (trace w))
    | Raise e => (Raise e, w)
    end.

(** build.py, lines 37-40. *)
Definition extend_paths (path_list : list path) : result (list path) :=
  if String.eqb (name h) "nt" then
    mapM (fun win_path =>
            p ← with_suffix fl win_path ".cmd";
            mret (resolve fl (cwd h) p))
         path_list
  else mret path_list.

(** The local variables of [main] when line 21 is reached. *)
Record locals := mklocals {
  exe : string;
  root_path : path;
  node_modules : path;
  ts_plugin_path : path;
  grpc_plugin_path : path;
  src_path : path;
  out_path : path;
  ts_path : path
}.

(** build.py, lines 7-20 of [main]. Unpacking a list that does not hold
    exactly two values raises [ValueError]. *)
Definition main_locals (args : Namespace) : result locals :=
  let exe := "grpc_tools_node_protoc" in
  let root_path := Path fl (out args) in
  let node_modules := joinpath fl root_path ["node_modules"] in
  let ts_plugin_path := joinpath fl node_modules [".bin"; "protoc-gen-ts"] in
  let grpc_plugin_path :=
    joinpath fl node_modules [".bin"; "grpc_tools_node_protoc_plugin"] in
  let src_path := resolve fl (cwd h) (joinpath fl root_path ["src"]) in
  let out_path := joinpath fl root_path ["bin"] in
  let ts_path := resolve fl (cwd h) (joinpath fl out_path ["ts"]) in
  paths ← extend_paths [ts_plugin_path; grpc_plugin_path];
  match paths with
  | [ts_plugin_path; grpc_plugin_path] =>
      let exe := if String.eqb (name h) "nt" then exe +:+ ".cmd" else exe in
      mret (mklocals exe root_path node_modules ts_plugin_path
                     grpc_plugin_path src_path out_path ts_path)
  | _ => Raise (ValueError "unpack")
  end.

(** The list literal of lines 24-33. *)
Definition check_call_args (l : locals) : list string :=
  [ "protoc";
    "--plugin=protoc-gen-ts=" +:+ str fl (ts_plugin_path l);
    "--plugin=protoc-gen-grpc=" +:+ str fl (grpc_plugin_path l);
    "--ts_out=grpc_js:" +:+ str fl (ts_path l);
    "--js_out=import_style=commonjs:" +:+ str fl (ts_path l);
    "--grpc_out=grpc_js:" +:+ str fl (ts_path l);
    "-I" +:+ str fl (src_path l);
    "munkey.proto" ].

(** build.py, line 34: the one [except] clause of the [try] statement. *)
Definition except_clause (err : exn) : option (M unit) :=
  match err with
  | CalledProcessError _ _ => Some (print err)
  | _ => None
  end.

(** build.py, lines 23-35: the [try] statement. *)
Definition main_try (l : locals) : M unit :=
  try_except (check_call h (check_call_args l);; mret tt) except_clause.

(** build.py, lines 6-35. *)
Definition main (args : Namespace) : M unit :=
  l ← lift (main_locals args);
  Path_mkdir (ts_path l) true true;;
  main_try l.

(** build.py, lines 43-45: [-o/--out] defaults to [str(Path.cwd())]. *)
Definition parse_args (out_option : option string) : Namespace :=
  mkargs (default (str fl (cwd h)) out_option).

(** build.py, lines 42-46. *)
Definition script (out_option : option string) : M unit :=
  main (parse_args out_option).

End script.

(** The exit status of the interpreter: 0 when the script runs to its end,
    1 when an exception is left uncaught. *)
Definition exit_status {A} (r : result A) : Z :=
  match r with Ok _ => 0 | Raise _ => 1 end.

End build.

(* ===================================================================== *)
(** * Vocabulary of the statements *)
(* ===================================================================== *)

Import pathlib.

(** A segment list is plain when it parses to itself: no drive, no root, no
    empty or dot component. Joining plain segments appends them. *)
Definition plain (fl : flavour) (segs : list string) : Prop :=
  parse_parts fl segs = mkpath "" "" segs.

(** Components that normalisation neither drops nor interprets. *)
Definition ordinary (c : string) : Prop := c ≠ "" ∧ c ≠ "." ∧ c ≠ "..".

(** [q] is [p] or one of [p.parents]. *)
Definition ancestor_or_self (q p : path) : Prop :=
  drv q = drv p ∧ root q = root p ∧ tail q `prefix_of` tail p.

(** A filesystem is a tree: every entry below an anchor lies in a directory. *)
Definition fs_tree (fs : filesystem) : Prop :=
  ∀ k x, k ≠ [] → is_Some (fs !! (k ++ [x])) → ∃ w, fs !! k = Some (Dir w).

(** [p] can be created with its missing parents: its anchor exists, and
    whatever exists of [p] and its parents is a directory that accepts new
    entries. *)
Definition creatable (fl : flavour) (cwd : path) (fs : filesystem) (p : path) : Prop :=
  is_Some (fs !! fs_key fl cwd (mkpath (drv p) (root p) [])) ∧
  ∀ q, ancestor_or_self q p →
       fs !! fs_key fl cwd q = None ∨ fs !! fs_key fl cwd q = Some (Dir true).

(** Executable forms of [fs_tree] and [creatable]. *)
Definition fs_tree_b (fs : filesystem) : bool :=
  forallb
    (fun entry : list string * node =>
       bool_decide (length entry.1 ≤ 1)
       || match fs !! removelast entry.1 with
          | Some (Dir _) => true
          | _ => false
          end)
    (map_to_list fs).

Definition creatable_b (fl : flavour) (cwd : path) (fs : filesystem) (p : path) : bool :=
  bool_decide (is_Some (fs !! fs_key fl cwd (mkpath (drv p) (root p) [])))
  && forallb
       (fun n =>
          match fs !! fs_key fl cwd (mkpath (drv p) (root p) (take n (tail p))) with
          | None | Some (Dir true) => true
          | _ => false
          end)
       (seq 0 (S (length (tail p)))).

(** The keys of a path and of its parents. *)
Definition on_chain (a : string) (t : list string) (k : list string) : Prop :=
  ∃ n, k = a :: take n t.

(** The place to which the operating system follows a path: it goes through
    the components of the full path from the anchor, and to step back with
    [..] it needs the directory it is in to exist. The result is the list of
    directory names from the anchor down to that place; components that do
    not exist yet are allowed, as for a path that is about to be created. *)
Fixpoint walk (fs : filesystem) (anchor : string) (stack comps : list string)
  : option (list string) :=
  match comps with
  | [] => Some (rev stack)
  | c :: cs =>
      if bool_decide (c = "") || bool_decide (c = ".") then walk fs anchor stack cs
      else if bool_decide (c = "..") then
        match fs !! (anchor :: rev stack) with
        | Some (Dir _) => walk fs anchor (List.tl stack) cs
        | _ => None
        end
      else walk fs anchor (c :: stack) cs
  end.

Definition locate (fl : flavour) (cwd : path) (fs : filesystem) (p : path)
  : option (list string) :=
  let a := fullpath fl cwd p in
  walk fs (drv a +:+ root a) [] (tail a).

(** [p.stem]: the name without its suffix. *)
Definition stem_of (nm : string) : string :=
  match pystr.rfind "."%char nm with
  | Some i =>
      if (0 <? i)%nat && (i <? String.length nm - 1)%nat
      then pystr.upto i nm else nm
  | None => nm
  end.

Definition stem (p : path) : string := stem_of (name p).

(** A working directory as [os.getcwd()] reports it: rooted at [/] on POSIX
    and at the root of a lettered drive on Windows, with components that are
    not empty, not [.] or [..], and hold no separator. *)
Definition component_ok (fl : flavour) (c : string) : bool :=
  pystr.nonempty c
  && negb (String.eqb c ".") && negb (String.eqb c "..")
  && negb (pystr.contains (sep fl) c)
  && match altsep fl with
     | Some a => negb (pystr.contains a c)
     | None => true
     end.

Definition canonical (fl : flavour) (p : path) : bool :=
  forallb (component_ok fl) (tail p)
  && match fl with
     | PosixFlavour => String.eqb (drv p) "" && String.eqb (root p) "/"
     | WindowsFlavour =>
         String.eqb (root p) "\"
         && match drv p with
            | String c (String colon EmptyString) =>
                Ascii.eqb colon ":"%char && pystr.is_letter c
            | _ => false
            end
     end.

(** The value of a computation that is known to have returned. *)
Definition is_ok {A} (r : result A) : bool :=
  match r with Ok _ => true | Raise _ => false end.

Definition from_ok {A} (d : A) (r : result A) : A :=
  match r with Ok a => a | Raise _ => d end.

(** ** Sample machines

    A POSIX machine and a Windows machine, each with a small filesystem, and
    three compilers: one that succeeds, one that exits with status 1, one
    that cannot be started. *)
Definition protoc_succeeds (argv : list string) (fs : filesystem) : os.proc_result :=
  os.Exited 0 fs.

Definition protoc_fails (argv : list string) (fs : filesystem) : os.proc_result :=
  os.Exited 1 fs.

Definition protoc_missing (argv : list string) (fs : filesystem) : os.proc_result :=
  os.SpawnFailed FileNotFoundError.

Definition posix_host (exec : list string → filesystem → os.proc_result) : os.host :=
  os.mkhost "posix" (mkpath "" "/" ["home"; "user"]) exec.

Definition nt_host (exec : list string → filesystem → os.proc_result) : os.host :=
  os.mkhost "nt" (mkpath "C:" "\" ["Users"; "user"]) exec.

Definition posix_fs : filesystem :=
  {[ ["/"] := Dir true;
     ["/"; "home"] := Dir true;
     ["/"; "home"; "user"] := Dir true;
     ["/"; "proj"] := Dir true ]}.

(** The same tree with [/proj] closed to new entries. *)
Definition posix_fs_readonly : filesystem :=
  {[ ["/"] := Dir true;
     ["/"; "home"] := Dir true;
     ["/"; "home"; "user"] := Dir true;
     ["/"; "proj"] := Dir false ]}.

(** The same tree with the output directory in place. *)
Definition posix_fs_built : filesystem :=
  {[ ["/"] := Dir true;
     ["/"; "home"] := Dir true;
     ["/"; "home"; "user"] := Dir true;
     ["/"; "proj"] := Dir true;
     ["/"; "proj"; "bin"] := Dir true;
     ["/"; "proj"; "bin"; "ts"] := Dir true ]}.

Definition nt_fs : filesystem :=
  {[ ["C:\"] := Dir true;
     ["C:\"; "Users"] := Dir true;
     ["C:\"; "Users"; "user"] := Dir true;
     ["C:\"; "proj"] := Dir true ]}.

(* ===================================================================== *)
(** * Facts about paths *)
(* ===================================================================== *)

Lemma nonempty_true (s : string) : pystr.nonempty s = true ↔ s ≠ "".
Proof. destruct s; simpl; split; congruence. Qed.

Lemma nonempty_app_r (s t : string) :
  pystr.nonempty t = true → pystr.nonempty (s +:+ t) = true.
Proof. destruct s; simpl; auto. Qed.

Lemma joinpath_plain fl p segs :
  plain fl segs →
  joinpath fl p segs = mkpath (drv p) (root p) (tail p ++ segs).
Proof. unfold plain, joinpath. intros ->. reflexivity. Qed.

Lemma joinpath_joinpath fl p segs1 segs2 :
  plain fl segs1 → plain fl segs2 → plain fl (segs1 ++ segs2) →
  joinpath fl (joinpath fl p segs1) segs2 = joinpath fl p (segs1 ++ segs2).
Proof.
  intros H1 H2 H12. rewrite !joinpath_plain by assumption.
  simpl. by rewrite app_assoc.
Qed.

Ltac plain_segments := intros fl; destruct fl; vm_compute; reflexivity.

Lemma plain_node_modules : ∀ fl, plain fl ["node_modules"].
Proof. plain_segments. Qed.
Lemma plain_ts_plugin : ∀ fl, plain fl [".bin"; "protoc-gen-ts"].
Proof. plain_segments. Qed.
Lemma plain_grpc_plugin : ∀ fl, plain fl [".bin"; "grpc_tools_node_protoc_plugin"].
Proof. plain_segments. Qed.
Lemma plain_src : ∀ fl, plain fl ["src"].
Proof. plain_segments. Qed.
Lemma plain_bin : ∀ fl, plain fl ["bin"].
Proof. plain_segments. Qed.
Lemma plain_ts : ∀ fl, plain fl ["ts"].
Proof. plain_segments. Qed.
Lemma plain_bin_ts : ∀ fl, plain fl ["bin"; "ts"].
Proof. plain_segments. Qed.
Lemma plain_ts_plugin_full :
  ∀ fl, plain fl ["node_modules"; ".bin"; "protoc-gen-ts"].
Proof. plain_segments. Qed.
Lemma plain_grpc_plugin_full :
  ∀ fl, plain fl ["node_modules"; ".bin"; "grpc_tools_node_protoc_plugin"].
Proof. plain_segments. Qed.
Lemma plain_ts_plugin_cmd :
  ∀ fl, plain fl ["node_modules"; ".bin"; "protoc-gen-ts.cmd"].
Proof. plain_segments. Qed.
Lemma plain_grpc_plugin_cmd :
  ∀ fl, plain fl ["node_modules"; ".bin"; "grpc_tools_node_protoc_plugin.cmd"].
Proof. plain_segments. Qed.

Create HintDb plain.
#[local] Hint Resolve plain_node_modules plain_ts_plugin plain_grpc_plugin
  plain_src plain_bin plain_ts plain_bin_ts plain_ts_plugin_full
  plain_grpc_plugin_full plain_ts_plugin_cmd plain_grpc_plugin_cmd : plain.

(** ** Names and suffixes *)

Lemma name_snoc d r t nm : name (mkpath d r (t ++ [nm])) = nm.
Proof. unfold name. simpl. apply last_last. Qed.

Lemma removelast_snoc {A} (l : list A) (x : A) : removelast (l ++ [x]) = l.
Proof. apply removelast_last. Qed.

(** On a name that has no suffix, [with_suffix] appends. *)
Lemma with_suffix_cmd fl d r t nm :
  nm ≠ "" → suffix_of nm = "" →
  with_suffix fl (mkpath d r (t ++ [nm])) ".cmd"
  = Ok (mkpath d r (t ++ [nm +:+ ".cmd"])).
Proof.
  intros Hnm Hsfx. unfold with_suffix, suffix.
  rewrite name_snoc, Hsfx. simpl tail. rewrite removelast_snoc.
  apply nonempty_true in Hnm. rewrite Hnm.
  destruct fl; reflexivity.
Qed.

(** [with_suffix] fails exactly on a path without a final component. *)
Lemma with_suffix_cmd_ok fl p :
  name p ≠ "" → ∃ q, with_suffix fl p ".cmd" = Ok q.
Proof.
  intros Hnm. unfold with_suffix.
  apply nonempty_true in Hnm. rewrite Hnm.
  destruct fl; simpl; eauto.
Qed.

Lemma with_suffix_cmd_empty_name fl p :
  name p = "" → with_suffix fl p ".cmd" = Raise (ValueError "has an empty name").
Proof.
  intros Hnm. unfold with_suffix. rewrite Hnm. destruct fl; reflexivity.
Qed.

(** ** Resolution *)

Lemma is_absolute_anchor fl d r t t' :
  is_absolute fl (mkpath d r t) = is_absolute fl (mkpath d r t').
Proof. reflexivity. Qed.

Lemma fullpath_absolute fl cwd p :
  is_absolute fl p = true → fullpath fl cwd p = p.
Proof.
  unfold is_absolute, fullpath. destruct fl; simpl.
  - rewrite andb_true_r. intros ->. reflexivity.
  - intros [-> ->]%andb_true_iff. reflexivity.
Qed.

Lemma fullpath_is_absolute fl cwd p :
  is_absolute fl cwd = true → is_absolute fl (fullpath fl cwd p) = true.
Proof.
  unfold is_absolute, fullpath. destruct fl; simpl.
  - rewrite !andb_true_r. intros Hc.
    destruct (pystr.nonempty (root p)) eqn:Hr; simpl; auto.
  - intros [Hr Hd]%andb_true_iff.
    destruct (pystr.nonempty (root p)) eqn:Hrp.
    + destruct (pystr.nonempty (drv p)) eqn:Hdp; simpl.
      * by rewrite Hrp, Hdp.
      * by rewrite Hrp, Hd.
    + destruct (pystr.nonempty (drv p)) eqn:Hdp; simpl.
      * destruct (String.eqb _ _); simpl; [by rewrite Hr, Hd | by rewrite Hdp].
      * by rewrite Hr, Hd.
Qed.

(** A resolved path is absolute. *)
Lemma resolve_is_absolute fl cwd p :
  is_absolute fl cwd = true → is_absolute fl (resolve fl cwd p) = true.
Proof.
  intros Hc. pose proof (fullpath_is_absolute fl cwd p Hc) as Ha.
  unfold resolve. destruct fl; [|exact Ha].
  destruct (pystr.nonempty (root p)) eqn:Hr; [reflexivity | exact Ha].
Qed.

Lemma normalize_ordinary stack c cs :
  ordinary c → normalize stack (c :: cs) = normalize (c :: stack) cs.
Proof.
  intros (H1 & H2 & H3). simpl.
  rewrite !bool_decide_eq_false_2 by assumption. reflexivity.
Qed.

Lemma normalize_snoc stack comps c :
  ordinary c → normalize stack (comps ++ [c]) = normalize stack comps ++ [c].
Proof.
  intros Hc. revert stack.
  induction comps as [|x xs IH]; intros stack.
  - simpl app. rewrite normalize_ordinary by assumption. reflexivity.
  - simpl.
    destruct (bool_decide (x = "") || bool_decide (x = ".")); [apply IH|].
    destruct (bool_decide (x = "..")); apply IH.
Qed.

(** A resolved path has only ordinary components. *)
Lemma normalize_clean stack comps :
  Forall ordinary stack → Forall ordinary (normalize stack comps).
Proof.
  revert stack. induction comps as [|x xs IH]; intros stack Hs; simpl.
  - by apply Forall_rev.
  - destruct (bool_decide (x = "") || bool_decide (x = ".")) eqn:H1; [by apply IH|].
    destruct (bool_decide (x = "..")) eqn:H2.
    + apply IH. destruct stack; [constructor | by inversion Hs].
    + apply IH. constructor; [|assumption].
      apply orb_false_iff in H1 as [H1a H1b].
      apply bool_decide_eq_false in H1a, H1b, H2. by repeat split.
Qed.

Lemma resolve_clean fl cwd p : Forall ordinary (tail (resolve fl cwd p)).
Proof. apply normalize_clean. constructor. Qed.

(** Resolution keeps an ordinary final component in place. *)
Lemma fullpath_tail_snoc fl cwd d r t c :
  ∃ t', tail (fullpath fl cwd (mkpath d r (t ++ [c]))) = t' ++ [c].
Proof.
  unfold fullpath. destruct fl; simpl.
  - destruct (pystr.nonempty r); simpl; [by exists t|].
    exists (tail cwd ++ t). by rewrite app_assoc.
  - destruct (pystr.nonempty r); simpl.
    + destruct (pystr.nonempty d); simpl; by exists t.
    + destruct (negb _ || _); simpl; [|by exists t].
      exists (tail cwd ++ t). by rewrite app_assoc.
Qed.

Lemma resolve_name fl cwd d r t c :
  ordinary c → name (resolve fl cwd (mkpath d r (t ++ [c]))) = c.
Proof.
  intros Hc. unfold resolve.
  destruct (fullpath_tail_snoc fl cwd d r t c) as [t' Ht'].
  unfold name. simpl tail. rewrite Ht', normalize_snoc by assumption.
  apply last_last.
Qed.

(* ===================================================================== *)
(** * Facts about directory creation *)
(* ===================================================================== *)

Lemma fs_key_absolute fl cwd d r t :
  is_absolute fl (mkpath d r t) = true →
  fs_key fl cwd (mkpath d r t) = (d +:+ r) :: t.
Proof.
  intros Ha. unfold fs_key. rewrite fullpath_absolute by assumption.
  unfold parts, anchor. simpl.
  apply andb_true_iff in Ha as [Hr _]. simpl in Hr.
  by rewrite nonempty_app_r.
Qed.

(** Whoever is a directory already is left alone. *)
Lemma mkdir_rec_existing fl cwd d r rtail parents fs :
  is_dir fl cwd fs (mkpath d r (rev rtail)) = true →
  mkdir_rec fl cwd d r rtail parents true fs = Ok fs.
Proof.
  intros Hd.
  assert (os_mkdir fl cwd (mkpath d r (rev rtail)) fs
          = Raise (OSError FileExistsError)) as Hos.
  { unfold os_mkdir. unfold is_dir in Hd.
    by destruct (fs !! fs_key fl cwd _). }
  destruct rtail as [|x rp]; simpl in Hos, Hd |- *; rewrite Hos;
    unfold mkdir_handle; by rewrite Hd.
Qed.

Lemma mkdir_existing fl cwd p parents fs :
  is_dir fl cwd fs p = true → mkdir fl cwd p parents true fs = Ok fs.
Proof.
  intros Hd. unfold mkdir. apply mkdir_rec_existing.
  rewrite rev_involutive. by destruct p.
Qed.

(** A successful [mkdir] leaves a directory behind, whatever its flags. *)
Lemma os_mkdir_is_dir fl cwd p fs fs' :
  os_mkdir fl cwd p fs = Ok fs' → is_dir fl cwd fs' p = true.
Proof.
  unfold os_mkdir, is_dir.
  destruct (fs !! fs_key fl cwd p); [discriminate|].
  destruct (fs !! fs_key fl cwd (parent p)) as [[[]|]|]; try discriminate.
  intros [= <-]. by rewrite lookup_insert_eq.
Qed.

Lemma mkdir_handle_is_dir fl cwd exist_ok p fs e fs' :
  mkdir_handle fl cwd exist_ok p fs e = Ok fs' → is_dir fl cwd fs' p = true.
Proof.
  unfold mkdir_handle. destruct exist_ok; simpl; [|discriminate].
  destruct (is_dir fl cwd fs p) eqn:Hd; simpl; [|discriminate].
  by intros [= <-].
Qed.

Lemma mkdir_again_is_dir fl cwd exist_ok p fs fs' :
  mkdir_again fl cwd exist_ok p fs = Ok fs' → is_dir fl cwd fs' p = true.
Proof.
  unfold mkdir_again.
  destruct (os_mkdir fl cwd p fs) as [fs1|e] eqn:Hos.
  - intros [= <-]. by eapply os_mkdir_is_dir.
  - destruct e as [[]| |]; try discriminate; apply mkdir_handle_is_dir.
Qed.

Lemma mkdir_rec_is_dir fl cwd d r rtail parents exist_ok fs fs' :
  mkdir_rec fl cwd d r rtail parents exist_ok fs = Ok fs' →
  is_dir fl cwd fs' (mkpath d r (rev rtail)) = true.
Proof.
  destruct rtail as [|x rp]; simpl;
    (destruct (os_mkdir _ _ _ fs) as [fs1|e] eqn:Hos;
     [intros [= <-]; by eapply os_mkdir_is_dir|]);
    destruct e as [[]| |]; try discriminate; try apply mkdir_handle_is_dir.
  destruct parents; simpl; [|discriminate].
  destruct (mkdir_rec _ _ _ _ rp true true fs); [|discriminate].
  apply mkdir_again_is_dir.
Qed.

Lemma mkdir_is_dir fl cwd p parents exist_ok fs fs' :
  mkdir fl cwd p parents exist_ok fs = Ok fs' → is_dir fl cwd fs' p = true.
Proof.
  unfold mkdir. intros H%mkdir_rec_is_dir.
  rewrite rev_involutive in H. by destruct p.
Qed.

Section creation.
Variables (fl : flavour) (cwd : path) (d r : string).
Hypothesis Habs : is_absolute fl (mkpath d r []) = true.

Local Abbreviation a := (d +:+ r).

Lemma key_abs t : fs_key fl cwd (mkpath d r t) = a :: t.
Proof. by apply fs_key_absolute. Qed.

Lemma os_mkdir_nil fs :
  is_Some (fs !! [a]) →
  os_mkdir fl cwd (mkpath d r []) fs = Raise (OSError FileExistsError).
Proof. unfold os_mkdir. rewrite key_abs. by intros [nd ->]. Qed.

Lemma os_mkdir_snoc t x fs :
  os_mkdir fl cwd (mkpath d r (t ++ [x])) fs =
  match fs !! (a :: t ++ [x]) with
  | Some _ => Raise (OSError FileExistsError)
  | None =>
      match fs !! (a :: t) with
      | None => Raise (OSError FileNotFoundError)
      | Some File => Raise (OSError NotADirectoryError)
      | Some (Dir false) => Raise (OSError PermissionError)
      | Some (Dir true) => Ok (<[a :: t ++ [x] := Dir true]> fs)
      end
  end.
Proof.
  unfold os_mkdir, parent. simpl. by rewrite removelast_snoc, !key_abs.
Qed.

Lemma mkdir_rec_cons x rp parents exist_ok fs :
  mkdir_rec fl cwd d r (x :: rp) parents exist_ok fs =
  match os_mkdir fl cwd (mkpath d r (rev rp ++ [x])) fs with
  | Ok fs' => Ok fs'
  | Raise (OSError FileNotFoundError) =>
      if negb parents then Raise (OSError FileNotFoundError)
      else
        match mkdir_rec fl cwd d r rp true true fs with
        | Ok fs1 => mkdir_again fl cwd exist_ok (mkpath d r (rev rp ++ [x])) fs1
        | Raise e => Raise e
        end
  | Raise e => mkdir_handle fl cwd exist_ok (mkpath d r (rev rp ++ [x])) fs e
  end.
Proof. reflexivity. Qed.

(** In a tree, whatever lies above an existing entry exists. *)
Lemma tree_prefixes fs t :
  fs_tree fs → is_Some (fs !! (a :: t)) →
  ∀ n, is_Some (fs !! (a :: take n t)).
Proof.
  intros Htree. induction t as [|x t IH] using rev_ind; intros Hsome n.
  - by rewrite take_nil.
  - destruct (decide (n ≤ length t)) as [Hn|Hn].
    + rewrite take_app_le by assumption. apply IH.
      destruct (Htree (a :: t) x) as [w Hw]; [done|done|]. by rewrite Hw.
    + rewrite take_ge by (rewrite length_app; simpl; lia). done.
Qed.

Lemma chain_snoc_parent t x n : on_chain a (t ++ [x]) (a :: take n t).
Proof.
  exists (n `min` length t).
  rewrite take_app_le by lia.
  destruct (decide (n ≤ length t)).
  - by rewrite Nat.min_l.
  - rewrite Nat.min_r, !take_ge by lia. done.
Qed.

Lemma chain_snoc_inv t x k :
  on_chain a (t ++ [x]) k → on_chain a t k ∨ k = a :: t ++ [x].
Proof.
  intros [n ->]. destruct (decide (n ≤ length t)).
  - left. exists n. by rewrite take_app_le.
  - right. by rewrite take_ge by (rewrite length_app; simpl; lia).
Qed.

Lemma not_on_chain_longer t x : ¬ on_chain a t (a :: t ++ [x]).
Proof.
  intros [n Hn]. injection Hn as Hn.
  apply (f_equal length) in Hn.
  rewrite length_app, length_take in Hn. simpl in Hn. lia.
Qed.

(** [mkdir(parents=True, exist_ok=True)] on a creatable path of a tree
    succeeds; afterwards the path and its parents are directories, and
    nothing else has changed. *)
Lemma mkdir_rec_creates rtail fs :
  fs_tree fs →
  is_Some (fs !! [a]) →
  (∀ k, on_chain a (rev rtail) k → fs !! k = None ∨ fs !! k = Some (Dir true)) →
  ∃ fs1, mkdir_rec fl cwd d r rtail true true fs = Ok fs1
         ∧ (∀ k, on_chain a (rev rtail) k → fs1 !! k = Some (Dir true))
         ∧ (∀ k, ¬ on_chain a (rev rtail) k → fs1 !! k = fs !! k)
         ∧ fs ⊆ fs1.
Proof.
  intros Htree Hroot. induction rtail as [|x rp IH]; intros Hchain.
  - exists fs. simpl. rewrite os_mkdir_nil by assumption.
    assert (fs !! [a] = Some (Dir true)) as Ha.
    { destruct (Hchain [a]) as [Hn|Hd]; [by exists 0| |done].
      rewrite Hn in Hroot. by destruct Hroot. }
    unfold mkdir_handle, is_dir. rewrite key_abs, Ha. simpl.
    repeat split; [|done..].
    intros k [n ->]. by rewrite take_nil.
  - rewrite mkdir_rec_cons, os_mkdir_snoc. simpl rev in *.
    assert (on_chain a (rev rp ++ [x]) (a :: rev rp ++ [x])) as Hself.
    { exists (S (length rp)).
      by rewrite take_ge by (rewrite length_app, length_rev; simpl; lia). }
    assert (∀ k, on_chain a (rev rp) k → on_chain a (rev rp ++ [x]) k) as Hup.
    { intros k [n ->]. apply chain_snoc_parent. }
    assert (on_chain a (rev rp) (a :: rev rp)) as Hparent.
    { exists (length rp). by rewrite take_ge by (rewrite length_rev; lia). }
    (* every key of an existing chain is a writable directory *)
    assert (∀ t, is_Some (fs !! (a :: t)) →
            (∀ k, on_chain a t k → on_chain a (rev rp ++ [x]) k) →
            ∀ k, on_chain a t k → fs !! k = Some (Dir true)) as Hfull.
    { intros t Hsome Hsub k Hk.
      destruct (Hchain k (Hsub k Hk)) as [Hn|Hd]; [|done].
      destruct Hk as [n ->].
      pose proof (tree_prefixes fs t Htree Hsome n) as Hs.
      rewrite Hn in Hs. by destruct Hs. }
    destruct (fs !! (a :: rev rp ++ [x])) as [nd|] eqn:Hs.
    + (* already there *)
      exists fs.
      assert (fs !! (a :: rev rp ++ [x]) = Some (Dir true)) as Hd.
      { destruct (Hchain _ Hself) as [Hn|Hd]; congruence. }
      unfold mkdir_handle, is_dir. rewrite key_abs. rewrite Hd. simpl.
      repeat split; [|done..].
      apply (Hfull (rev rp ++ [x])); [by rewrite Hs | done].
    + destruct (fs !! (a :: rev rp)) as [[[]|]|] eqn:Hp.
      * (* the parent is there and writable *)
        eexists. split; [reflexivity|]. repeat split.
        -- intros k [Hk| ->]%chain_snoc_inv.
           ++ rewrite lookup_insert_ne.
              ** apply (Hfull (rev rp)); [by rewrite Hp | done | done].
              ** intros <-. by apply (not_on_chain_longer (rev rp) x).
           ++ apply lookup_insert_eq.
        -- intros k Hk. apply lookup_insert_ne. by intros <-.
        -- by apply insert_subseteq.
      * destruct (Hchain _ (Hup _ Hparent)); congruence.
      * destruct (Hchain _ (Hup _ Hparent)); congruence.
      * (* the parent is missing: create it first *)
        simpl negb. cbv iota.
        destruct IH as (fs1 & -> & Hdirs & Hsame & Hsub).
        { intros k Hk. by apply Hchain, Hup. }
        unfold mkdir_again. rewrite os_mkdir_snoc.
        rewrite (Hsame (a :: rev rp ++ [x])) by apply not_on_chain_longer.
        rewrite Hs, (Hdirs _ Hparent).
        eexists. split; [reflexivity|]. repeat split.
        -- intros k [Hk| ->]%chain_snoc_inv.
           ++ rewrite lookup_insert_ne; [by apply Hdirs|].
              intros <-. by apply (not_on_chain_longer (rev rp) x).
           ++ apply lookup_insert_eq.
        -- intros k Hk. rewrite lookup_insert_ne by (by intros <-).
           apply Hsame. intros Hk'. by apply Hk, Hup.
        -- etrans; [exact Hsub|]. apply insert_subseteq.
           rewrite (Hsame (a :: rev rp ++ [x])) by apply not_on_chain_longer. done.
Qed.

End creation.

Lemma ancestor_on_chain q p :
  ancestor_or_self q p → on_chain (drv p +:+ root p) (tail p) ((drv q +:+ root q) :: tail q).
Proof.
  intros (-> & -> & [k Hk]). exists (length (tail q)).
  by rewrite Hk, take_app_length.
Qed.

Lemma mkdir_creates fl cwd p fs :
  is_absolute fl p = true → fs_tree fs → creatable fl cwd fs p →
  ∃ fs1, mkdir fl cwd p true true fs = Ok fs1
         ∧ (∀ q, ancestor_or_self q p → is_dir fl cwd fs1 q = true)
         ∧ fs ⊆ fs1.
Proof.
  destruct p as [d r t]. intros Habs Htree [Hroot Hchain]. simpl in Hroot.
  assert (is_absolute fl (mkpath d r []) = true) as Habs0 by exact Habs.
  rewrite (key_abs fl cwd d r Habs0) in Hroot.
  destruct (mkdir_rec_creates fl cwd d r Habs0 (rev t) fs Htree Hroot)
    as (fs1 & Hmk & Hdirs & _ & Hsub).
  - rewrite rev_involutive. intros k [n ->].
    rewrite <- (key_abs fl cwd d r Habs0). apply Hchain.
    repeat split. apply prefix_take.
  - exists fs1. split; [exact Hmk|]. split; [|exact Hsub].
    intros q Hq. pose proof (ancestor_on_chain _ _ Hq) as Hk.
    destruct Hq as (Hd & Hr & _). destruct q as [qd qr qt].
    simpl in *. subst qd qr.
    unfold is_dir. rewrite (key_abs fl cwd d r Habs0).
    rewrite rev_involutive in Hdirs. by rewrite (Hdirs _ Hk).
Qed.

(* ===================================================================== *)
(** * Facts about the script *)
(* ===================================================================== *)

Import os subprocess build.

Lemma from_ok_eq {A} (d : A) (r : result A) :
  is_ok r = true → r = Ok (from_ok d r).
Proof. destruct r; simpl; congruence. Qed.

(** The value of every local variable of [main] at line 21; the first part
    of [main] never raises. *)
Lemma main_locals_eq h args :
  let fl := path_flavour h in
  let root := Path fl (out args) in
  let nt := String.eqb (os.name h) "nt" in
  main_locals h args = Ok {|
    exe := if nt then "grpc_tools_node_protoc.cmd" else "grpc_tools_node_protoc";
    root_path := root;
    node_modules := joinpath fl root ["node_modules"];
    ts_plugin_path :=
      if nt
      then resolve fl (cwd h)
             (joinpath fl root ["node_modules"; ".bin"; "protoc-gen-ts.cmd"])
      else joinpath fl root ["node_modules"; ".bin"; "protoc-gen-ts"];
    grpc_plugin_path :=
      if nt
      then resolve fl (cwd h)
             (joinpath fl root
                ["node_modules"; ".bin"; "grpc_tools_node_protoc_plugin.cmd"])
      else joinpath fl root
             ["node_modules"; ".bin"; "grpc_tools_node_protoc_plugin"];
    src_path := resolve fl (cwd h) (joinpath fl root ["src"]);
    out_path := joinpath fl root ["bin"];
    ts_path := resolve fl (cwd h) (joinpath fl root ["bin"; "ts"])
  |}.
Proof.
  intros fl root nt. unfold main_locals, extend_paths. fold fl nt root.
  rewrite !(joinpath_joinpath fl root) by auto with plain.
  simpl app.
  destruct nt; [|reflexivity].
  rewrite !(joinpath_plain fl root) by auto with plain.
  change (root.(tail) ++ ["node_modules"; ".bin"; "protoc-gen-ts"])
    with (root.(tail) ++ ["node_modules"; ".bin"] ++ ["protoc-gen-ts"]).
  change (root.(tail) ++ ["node_modules"; ".bin"; "grpc_tools_node_protoc_plugin"])
    with (root.(tail) ++ ["node_modules"; ".bin"] ++ ["grpc_tools_node_protoc_plugin"]).
  rewrite !app_assoc. simpl mapM.
  rewrite !with_suffix_cmd by (vm_compute; congruence).
  simpl. rewrite <- !app_assoc. reflexivity.
Qed.

Lemma main_locals_ok h args : ∃ l, main_locals h args = Ok l.
Proof. eexists. apply main_locals_eq. Qed.

(** [main] step by step, once its local variables are known. *)
Lemma main_mkdir_raises h args l w e :
  main_locals h args = Ok l →
  mkdir (path_flavour h) (cwd h) (ts_path l) true true (fs w) = Raise e →
  main h args w = (Raise e, w).
Proof.
  intros Hl Hmk. unfold main, lift, mbind, M_bind, Path_mkdir.
  by rewrite Hl, Hmk.
Qed.

Lemma main_mkdir_ok h args l w fs1 :
  main_locals h args = Ok l →
  mkdir (path_flavour h) (cwd h) (ts_path l) true true (fs w) = Ok fs1 →
  main h args w = main_try h l (mkworld fs1 (trace w)).
Proof.
  intros Hl Hmk. unfold main, lift, mbind, M_bind, Path_mkdir.
  by rewrite Hl, Hmk.
Qed.

Lemma main_try_exited_zero h l w fs' :
  exec h (check_call_args h l) (fs w) = Exited 0 fs' →
  main_try h l w
  = (Ok tt, mkworld fs' (trace w ++ [Call (check_call_args h l)])).
Proof.
  intros He. unfold main_try, try_except, mbind, M_bind, check_call.
  by rewrite He.
Qed.

Lemma main_try_exited_nonzero h l w rc fs' :
  exec h (check_call_args h l) (fs w) = Exited rc fs' → rc ≠ 0%Z →
  main_try h l w
  = (Ok tt, mkworld fs' (trace w ++ [Call (check_call_args h l);
                                      Print (CalledProcessError rc (check_call_args h l))])).
Proof.
  intros He Hrc. unfold main_try, try_except, mbind, M_bind, check_call.
  rewrite He. apply Z.eqb_neq in Hrc. rewrite Hrc. simpl.
  unfold print, emit. simpl. by rewrite <- app_assoc.
Qed.

Lemma main_try_spawn_failed h l w e :
  exec h (check_call_args h l) (fs w) = SpawnFailed e →
  main_try h l w
  = (Raise (OSError e), mkworld (fs w) (trace w ++ [Call (check_call_args h l)])).
Proof.
  intros He. unfold main_try, try_except, mbind, M_bind, check_call.
  by rewrite He.
Qed.

(** The commands started by [main]: one, with the arguments of lines 24-33,
    when the output directory could be made, and none otherwise. *)
Lemma main_try_calls h l w :
  calls (main_try h l w).2 = calls w ++ [check_call_args h l].
Proof.
  destruct (exec h (check_call_args h l) (fs w)) as [rc fs'|e] eqn:He.
  - destruct (decide (rc = 0%Z)) as [->|Hrc].
    + rewrite (main_try_exited_zero _ _ _ _ He). unfold calls. simpl.
      by rewrite omap_app.
    + rewrite (main_try_exited_nonzero _ _ _ _ _ He Hrc). unfold calls. simpl.
      by rewrite omap_app.
  - rewrite (main_try_spawn_failed _ _ _ _ He). unfold calls. simpl.
    by rewrite omap_app.
Qed.

Lemma main_calls h args l w :
  main_locals h args = Ok l →
  calls (main h args w).2 =
  calls w ++
  match mkdir (path_flavour h) (cwd h) (ts_path l) true true (fs w) with
  | Ok _ => [check_call_args h l]
  | Raise _ => []
  end.
Proof.
  intros Hl.
  destruct (mkdir _ _ _ true true (fs w)) as [fs1|e] eqn:Hmk.
  - rewrite (main_mkdir_ok _ _ _ _ _ Hl Hmk), main_try_calls. reflexivity.
  - rewrite (main_mkdir_raises _ _ _ _ _ Hl Hmk). simpl. by rewrite app_nil_r.
Qed.

(* ===================================================================== *)
(** * The model at work *)
(* ===================================================================== *)

Example Path_posix :
  map (Path PosixFlavour) ["/proj"; "//proj/./a//b/"; "///proj"; ""; "a/../b"]
  = [ mkpath "" "/" ["proj"];
      mkpath "" "//" ["proj"; "a"; "b"];
      mkpath "" "/" ["proj"];
      mkpath "" "" [];
      mkpath "" "" ["a"; ".."; "b"] ].
Proof. vm_compute. reflexivity. Qed.

Example Path_windows :
  map (Path WindowsFlavour)
      ["C:/proj/x"; "C:proj"; "\proj"; "//server/share/x/y"; "\\?\C:\a"; "1:/a"]
  = [ mkpath "C:" "\" ["proj"; "x"];
      mkpath "C:" "" ["proj"];
      mkpath "" "\" ["proj"];
      mkpath "\\server\share" "\" ["x"; "y"];
      mkpath "\\?\C:" "\" ["a"];
      mkpath "" "" ["1:"; "a"] ].
Proof. vm_compute. reflexivity. Qed.

Example joinpath_anchored :
  joinpath WindowsFlavour (Path WindowsFlavour "C:/proj") ["c:x"; "/y"]
  = mkpath "c:" "\" ["y"]
  ∧ joinpath WindowsFlavour (Path WindowsFlavour "C:/proj") ["D:x"]
    = mkpath "D:" "" ["x"]
  ∧ joinpath PosixFlavour (Path PosixFlavour "proj") ["/etc"; "x"]
    = mkpath "" "/" ["etc"; "x"].
Proof. vm_compute. done. Qed.

Example with_suffix_cases :
  map (fun s => with_suffix PosixFlavour (Path PosixFlavour s) ".cmd")
      ["a/b.txt"; "a/.bin"; "a.tar.gz"; "x."; "/"; ""]
  = [ Ok (mkpath "" "" ["a"; "b.cmd"]);
      Ok (mkpath "" "" ["a"; ".bin.cmd"]);
      Ok (mkpath "" "" ["a.tar.cmd"]);
      Ok (mkpath "" "" ["x..cmd"]);
      Raise (ValueError "has an empty name");
      Raise (ValueError "has an empty name") ].
Proof. vm_compute. reflexivity. Qed.

Example resolve_posix :
  map (fun s => str PosixFlavour
                  (resolve PosixFlavour (mkpath "" "/" ["home"; "user"])
                           (Path PosixFlavour s)))
      ["proj/bin/ts"; "//proj"; "../../../x/./y"; "/a/../../b"; ""]
  = ["/home/user/proj/bin/ts"; "/proj"; "/x/y"; "/b"; "/home/user"].
Proof. vm_compute. reflexivity. Qed.

Example resolve_windows :
  map (fun s => str WindowsFlavour
                  (resolve WindowsFlavour (mkpath "C:" "\" ["Users"; "user"])
                           (Path WindowsFlavour s)))
      ["proj/bin/ts"; "\proj"; "c:x\..\y"; "D:x"; ""]
  = ["C:\Users\user\proj\bin\ts"; "C:\proj"; "C:\Users\user\y"; "D:\x";
     "C:\Users\user"].
Proof. vm_compute. reflexivity. Qed.

Example mkdir_flags :
  let cwd := mkpath "" "/" ["home"; "user"] in
  let ts := mkpath "" "/" ["proj"; "bin"; "ts"] in
  mkdir PosixFlavour cwd ts false true posix_fs = Raise (OSError FileNotFoundError)
  ∧ mkdir PosixFlavour cwd ts true false posix_fs_built
    = Raise (OSError FileExistsError)
  ∧ is_ok (mkdir PosixFlavour cwd ts true true posix_fs) = true
  ∧ mkdir PosixFlavour cwd ts true true posix_fs_readonly
    = Raise (OSError PermissionError).
Proof. vm_compute. done. Qed.

(** The entry point hands [main] the parsed option; without [-o] the output
    root is the working directory. *)
Lemma script_main h out_option :
  script h out_option = main h (parse_args h out_option).
Proof. reflexivity. Qed.

Example scenario_default_root :
  calls (script (posix_host protoc_succeeds) None (mkworld posix_fs [])).2
  = [[ "protoc";
       "--plugin=protoc-gen-ts=/home/user/node_modules/.bin/protoc-gen-ts";
       "--plugin=protoc-gen-grpc=/home/user/node_modules/.bin/grpc_tools_node_protoc_plugin";
       "--ts_out=grpc_js:/home/user/bin/ts";
       "--js_out=import_style=commonjs:/home/user/bin/ts";
       "--grpc_out=grpc_js:/home/user/bin/ts";
       "-I/home/user/src";
       "munkey.proto" ]].
Proof. vm_compute. reflexivity. Qed.

(* ===================================================================== *)
(** * The properties of the script *)
(* ===================================================================== *)

(** Evaluation of a closed [... = Ok _] goal whose value is left open. *)
Ltac evaluates := apply (from_ok_eq ∅); vm_compute; reflexivity.

(** ** The compiler executable *)

(** C1 (the code departs from the claim). [main] prepares the compiler
    executable identifier, [grpc_tools_node_protoc] with [.cmd] appended on a
    Windows-family host, in its variable [exe], but never uses it: whenever
    the compiler is started, on every host, the first element of the argument
    list is the literal [protoc], which is not the prepared identifier. *)
Theorem C1_compiler_started_as_protoc h args w l fs1 :
  main_locals h args = Ok l →
  mkdir (path_flavour h) (cwd h) (ts_path l) true true (fs w) = Ok fs1 →
  exe l = (if String.eqb (os.name h) "nt"
           then "grpc_tools_node_protoc.cmd" else "grpc_tools_node_protoc")
  ∧ ∃ rest, calls (main h args w).2 = calls w ++ ["protoc" :: rest]
            ∧ "protoc" ≠ exe l.
Proof.
  intros Hl Hmk.
  pose proof (main_locals_eq h args) as Heq. simpl in Heq.
  rewrite Hl in Heq. injection Heq as ->.
  split; [reflexivity|].
  eexists. rewrite (main_calls _ _ _ _ Hl), Hmk.
  split; [reflexivity|].
  simpl. by destruct (String.eqb (os.name h) "nt").
Qed.

Lemma C1_witness :
  let h := nt_host protoc_succeeds in
  let args := mkargs "C:\proj" in
  let w := mkworld nt_fs [] in
  ∃ l fs1,
    main_locals h args = Ok l
    ∧ mkdir (path_flavour h) (cwd h) (ts_path l) true true (fs w) = Ok fs1
    ∧ exe l = "grpc_tools_node_protoc.cmd"
    ∧ ∃ rest, calls (main h args w).2 = calls w ++ ["protoc" :: rest]
              ∧ "protoc" ≠ exe l.
Proof.
  intros h args w. eexists _, _.
  split; [exact (main_locals_eq h args)|].
  split; [evaluates|].
  eapply (C1_compiler_started_as_protoc h args w _ _ (main_locals_eq h args)).
  evaluates.
Defined.

(** ** Failures *)

(** C2. For every input, when the compiler exits with a status other than 0,
    [main] catches the [CalledProcessError], prints it and returns normally:
    the compiler was started once, the error is the one thing printed, and
    the exit status of the tool is 0. *)
Theorem C2_compiler_failure_is_swallowed h args w l fs1 rc fs2 :
  main_locals h args = Ok l →
  mkdir (path_flavour h) (cwd h) (ts_path l) true true (fs w) = Ok fs1 →
  exec h (check_call_args h l) fs1 = Exited rc fs2 →
  rc ≠ 0%Z →
  main h args w
  = (Ok tt,
     mkworld fs2
       (trace w ++ [Call (check_call_args h l);
                    Print (CalledProcessError rc (check_call_args h l))]))
  ∧ exit_status (main h args w).1 = 0%Z.
Proof.
  intros Hl Hmk Hexec Hrc.
  rewrite (main_mkdir_ok _ _ _ _ _ Hl Hmk).
  rewrite (main_try_exited_nonzero h l _ rc fs2) by assumption.
  split; reflexivity.
Qed.

Lemma C2_witness :
  let h := posix_host protoc_fails in
  let args := mkargs "/proj" in
  let w := mkworld posix_fs [] in
  ∃ l fs1 fs2,
    main_locals h args = Ok l
    ∧ mkdir (path_flavour h) (cwd h) (ts_path l) true true (fs w) = Ok fs1
    ∧ exec h (check_call_args h l) fs1 = Exited 1 fs2
    ∧ 1%Z ≠ 0%Z
    ∧ main h args w
      = (Ok tt,
         mkworld fs2
           (trace w ++ [Call (check_call_args h l);
                        Print (CalledProcessError 1 (check_call_args h l))]))
    ∧ exit_status (main h args w).1 = 0%Z.
Proof.
  intros h args w. eexists _, _, _.
  split; [exact (main_locals_eq h args)|].
  split; [evaluates|].
  split; [reflexivity|].
  split; [lia|].
  eapply (C2_compiler_failure_is_swallowed h args w _ _ 1%Z _
           (main_locals_eq h args));
    [evaluates | reflexivity | lia].
Defined.

(** C8. A failure to create the output directory is caught nowhere: [main]
    ends with that very exception, the world is as it was (no compiler was
    started, nothing was printed), and the exit status of the tool is not 0. *)
Theorem C8_mkdir_failure_is_fatal h args w l e :
  main_locals h args = Ok l →
  mkdir (path_flavour h) (cwd h) (ts_path l) true true (fs w) = Raise e →
  main h args w = (Raise e, w)
  ∧ calls (main h args w).2 = calls w
  ∧ exit_status (main h args w).1 = 1%Z.
Proof.
  intros Hl Hmk. rewrite (main_mkdir_raises _ _ _ _ _ Hl Hmk).
  repeat split.
Qed.

Lemma C8_witness :
  let h := posix_host protoc_succeeds in
  let args := mkargs "/proj" in
  let w := mkworld posix_fs_readonly [] in
  ∃ l,
    main_locals h args = Ok l
    ∧ mkdir (path_flavour h) (cwd h) (ts_path l) true true (fs w)
      = Raise (OSError PermissionError)
    ∧ main h args w = (Raise (OSError PermissionError), w)
    ∧ calls (main h args w).2 = calls w
    ∧ exit_status (main h args w).1 = 1%Z.
Proof.
  intros h args w. eexists.
  split; [exact (main_locals_eq h args)|].
  split; [vm_compute; reflexivity|].
  eapply (C8_mkdir_failure_is_fatal h args w _ _ (main_locals_eq h args)).
  vm_compute. reflexivity.
Defined.

(** C9. The [except] clause names [CalledProcessError] and nothing else.
    When the compiler cannot be started, the [OSError] of the attempt passes
    through the [try] statement: [main] ends with it, nothing is printed, and
    the exit status of the tool is not 0. *)
Theorem C9_spawn_failure_is_fatal h args w l fs1 e :
  main_locals h args = Ok l →
  mkdir (path_flavour h) (cwd h) (ts_path l) true true (fs w) = Ok fs1 →
  exec h (check_call_args h l) fs1 = SpawnFailed e →
  (∀ err, is_Some (except_clause err) ↔ ∃ rc cmd, err = CalledProcessError rc cmd)
  ∧ main h args w
    = (Raise (OSError e), mkworld fs1 (trace w ++ [Call (check_call_args h l)]))
  ∧ printed (main h args w).2 = printed w
  ∧ exit_status (main h args w).1 = 1%Z.
Proof.
  intros Hl Hmk Hexec. split.
  - intros err. split.
    + destruct err; simpl; intros [k Hk]; try discriminate. eauto.
    + intros (rc & cmd & ->). simpl. eauto.
  - rewrite (main_mkdir_ok _ _ _ _ _ Hl Hmk).
    rewrite (main_try_spawn_failed h l _ e) by assumption.
    repeat split. unfold printed. simpl. rewrite omap_app. simpl.
    by rewrite app_nil_r.
Qed.

Lemma C9_witness :
  let h := posix_host protoc_missing in
  let args := mkargs "/proj" in
  let w := mkworld posix_fs [] in
  ∃ l fs1,
    main_locals h args = Ok l
    ∧ mkdir (path_flavour h) (cwd h) (ts_path l) true true (fs w) = Ok fs1
    ∧ exec h (check_call_args h l) fs1 = SpawnFailed FileNotFoundError
    ∧ (∀ err, is_Some (except_clause err) ↔ ∃ rc cmd, err = CalledProcessError rc cmd)
    ∧ main h args w
      = (Raise (OSError FileNotFoundError),
         mkworld fs1 (trace w ++ [Call (check_call_args h l)]))
    ∧ printed (main h args w).2 = printed w
    ∧ exit_status (main h args w).1 = 1%Z.
Proof.
  intros h args w. eexists _, _.
  split; [exact (main_locals_eq h args)|].
  split; [evaluates|].
  split; [reflexivity|].
  eapply (C9_spawn_failure_is_fatal h args w _ _ _ (main_locals_eq h args));
    [evaluates | reflexivity].
Defined.

(** ** The paths handed to the compiler *)

Lemma string_app_assoc (s t u : string) : (s +:+ t) +:+ u = s +:+ (t +:+ u).
Proof.
  induction s as [|c s IH]; [reflexivity|].
  change (String c ((s +:+ t) +:+ u) = String c (s +:+ (t +:+ u))).
  by rewrite IH.
Qed.

Lemma join_snoc sep t nm : ∃ pre, pystr.join sep (t ++ [nm]) = pre +:+ nm.
Proof.
  unfold pystr.join. induction t as [|x t [pre IH]].
  - by exists "".
  - exists (x +:+ sep +:+ pre).
    change ((x :: t) ++ [nm]) with (x :: (t ++ [nm])).
    destruct (t ++ [nm]) as [|y l] eqn:Ht; [by destruct t|].
    change (String.concat sep (x :: y :: l))
      with (x +:+ sep +:+ String.concat sep (y :: l)).
    by rewrite IH, !string_app_assoc.
Qed.

(** The string of a path ends with the name of the path. *)
Lemma str_ends_with_name fl p :
  pathlib.name p ≠ "" → ∃ pre, str fl p = pre +:+ pathlib.name p.
Proof.
  intros Hnm. destruct p as [d r t]. unfold pathlib.name in *. simpl in *.
  destruct (exists_last (l := t)) as (t' & nm & ->).
  { intros ->. by apply Hnm. }
  rewrite last_last in *.
  destruct (join_snoc (sep_str fl) t' nm) as [pre Hpre].
  exists ((d +:+ r) +:+ pre). unfold str, anchor. simpl.
  rewrite Hpre, <- string_app_assoc.
  rewrite nonempty_app_r; [reflexivity | by apply nonempty_true].
Qed.

Lemma ordinary_name (c : string) :
  c ≠ "" → c ≠ "." → c ≠ ".." → ordinary c.
Proof. by repeat split. Qed.

(** C5. On a Windows-family host ([os.name == 'nt']) the two plugin paths
    are the resolved forms of [node_modules/.bin/protoc-gen-ts.cmd] and of
    [node_modules/.bin/grpc_tools_node_protoc_plugin.cmd] under the output
    root: their names are the plain plugin names with [.cmd] appended, and
    the strings handed to the compiler end with them. On any other host the
    two paths are [node_modules/.bin/<plugin name>] under the output root as
    they stand, the names are the plain plugin names and carry no suffix. *)
Theorem C5_plugin_suffix h args :
  let fl := path_flavour h in
  let root := Path fl (out args) in
  ∃ l, main_locals h args = Ok l ∧
    if String.eqb (os.name h) "nt" then
      ts_plugin_path l
      = resolve fl (cwd h)
          (joinpath fl root ["node_modules"; ".bin"; "protoc-gen-ts.cmd"])
      ∧ grpc_plugin_path l
        = resolve fl (cwd h)
            (joinpath fl root
               ["node_modules"; ".bin"; "grpc_tools_node_protoc_plugin.cmd"])
      ∧ pathlib.name (ts_plugin_path l) = "protoc-gen-ts" +:+ ".cmd"
      ∧ pathlib.name (grpc_plugin_path l)
        = "grpc_tools_node_protoc_plugin" +:+ ".cmd"
      ∧ suffix (ts_plugin_path l) = ".cmd"
      ∧ suffix (grpc_plugin_path l) = ".cmd"
      ∧ (∃ pre, str fl (ts_plugin_path l) = pre +:+ "protoc-gen-ts.cmd")
      ∧ (∃ pre, str fl (grpc_plugin_path l)
                = pre +:+ "grpc_tools_node_protoc_plugin.cmd")
    else
      ts_plugin_path l
      = joinpath fl root ["node_modules"; ".bin"; "protoc-gen-ts"]
      ∧ grpc_plugin_path l
        = joinpath fl root
            ["node_modules"; ".bin"; "grpc_tools_node_protoc_plugin"]
      ∧ pathlib.name (ts_plugin_path l) = "protoc-gen-ts"
      ∧ pathlib.name (grpc_plugin_path l) = "grpc_tools_node_protoc_plugin"
      ∧ suffix (ts_plugin_path l) = ""
      ∧ suffix (grpc_plugin_path l) = ""
      ∧ (∃ pre, str fl (ts_plugin_path l) = pre +:+ "protoc-gen-ts")
      ∧ (∃ pre, str fl (grpc_plugin_path l)
                = pre +:+ "grpc_tools_node_protoc_plugin").
Proof.
  intros fl root. eexists. split; [apply main_locals_eq|].
  fold fl root. simpl.
  assert (∀ p nm, pathlib.name p = nm → nm ≠ "" →
          ∃ pre, str fl p = pre +:+ nm) as Hstr.
  { intros p nm <- Hnm. by apply str_ends_with_name. }
  destruct (String.eqb (os.name h) "nt").
  - rewrite !(joinpath_plain fl root) by auto with plain.
    change (tail root ++ ["node_modules"; ".bin"; "protoc-gen-ts.cmd"])
      with (tail root ++ ["node_modules"; ".bin"] ++ ["protoc-gen-ts.cmd"]).
    change (tail root
            ++ ["node_modules"; ".bin"; "grpc_tools_node_protoc_plugin.cmd"])
      with (tail root ++ ["node_modules"; ".bin"]
            ++ ["grpc_tools_node_protoc_plugin.cmd"]).
    rewrite !app_assoc.
    assert (∀ t c, ordinary c →
            pathlib.name
              (resolve fl (cwd h)
                 (mkpath (drv root) (pathlib.root root) (t ++ [c]))) = c)
      as Hname by (intros; by apply resolve_name).
    unfold suffix.
    rewrite !Hname by (apply ordinary_name; discriminate).
    repeat split; try reflexivity;
      apply Hstr; first [discriminate | apply Hname, ordinary_name; discriminate].
  - rewrite !(joinpath_plain fl root) by auto with plain.
    change (tail root ++ ["node_modules"; ".bin"; "protoc-gen-ts"])
      with (tail root ++ ["node_modules"; ".bin"] ++ ["protoc-gen-ts"]).
    change (tail root
            ++ ["node_modules"; ".bin"; "grpc_tools_node_protoc_plugin"])
      with (tail root ++ ["node_modules"; ".bin"]
            ++ ["grpc_tools_node_protoc_plugin"]).
    rewrite !app_assoc. unfold suffix. rewrite !name_snoc.
    repeat split; try reflexivity;
      apply Hstr; first [discriminate | apply name_snoc].
Qed.

(** The scenarios of the specification: output root [/proj] on a POSIX host,
    and [C:\proj] on a Windows host. *)
Example scenario_posix :
  main_locals (posix_host protoc_succeeds) (mkargs "/proj")
  = Ok {|
      exe := "grpc_tools_node_protoc";
      root_path := Path PosixFlavour "/proj";
      node_modules := Path PosixFlavour "/proj/node_modules";
      ts_plugin_path := Path PosixFlavour "/proj/node_modules/.bin/protoc-gen-ts";
      grpc_plugin_path :=
        Path PosixFlavour "/proj/node_modules/.bin/grpc_tools_node_protoc_plugin";
      src_path := Path PosixFlavour "/proj/src";
      out_path := Path PosixFlavour "/proj/bin";
      ts_path := Path PosixFlavour "/proj/bin/ts"
    |}.
Proof. vm_compute. reflexivity. Qed.

Example scenario_windows :
  main_locals (nt_host protoc_succeeds) (mkargs "C:\proj")
  = Ok {|
      exe := "grpc_tools_node_protoc.cmd";
      root_path := Path WindowsFlavour "C:\proj";
      node_modules := Path WindowsFlavour "C:\proj\node_modules";
      ts_plugin_path :=
        Path WindowsFlavour "C:\proj\node_modules\.bin\protoc-gen-ts.cmd";
      grpc_plugin_path :=
        Path WindowsFlavour
          "C:\proj\node_modules\.bin\grpc_tools_node_protoc_plugin.cmd";
      src_path := Path WindowsFlavour "C:\proj\src";
      out_path := Path WindowsFlavour "C:\proj\bin";
      ts_path := Path WindowsFlavour "C:\proj\bin\ts"
    |}.
Proof. vm_compute. reflexivity. Qed.

Lemma walk_normalize fs anchor stack comps k :
  walk fs anchor stack comps = Some k → k = normalize stack comps.
Proof.
  revert stack. induction comps as [|c cs IH]; intros stack; simpl.
  - by intros [= <-].
  - destruct (bool_decide (c = "") || bool_decide (c = ".")); [apply IH|].
    destruct (bool_decide (c = "..")); [|apply IH].
    destruct (fs !! (anchor :: rev stack)) as [[w|]|]; try discriminate.
    apply IH.
Qed.

(** A resolved path spells out the place to which the operating system
    follows the path. *)
Lemma resolve_locate fl cwd fs p comps :
  locate fl cwd fs p = Some comps → tail (resolve fl cwd p) = comps.
Proof. unfold locate. intros H%walk_normalize. by subst comps. Qed.

Lemma walk_without_dotdot fs anchor stack comps :
  Forall (fun c => c ≠ "..") comps →
  walk fs anchor stack comps = Some (normalize stack comps).
Proof.
  intros Hall. revert stack.
  induction Hall as [|c cs Hc _ IH]; intros stack; simpl; [reflexivity|].
  destruct (bool_decide (c = "") || bool_decide (c = ".")); [apply IH|].
  rewrite bool_decide_eq_false_2 by assumption. apply IH.
Qed.

Lemma locate_without_dotdot fl cwd fs p :
  Forall (fun c => c ≠ "..") (tail (fullpath fl cwd p)) →
  locate fl cwd fs p = Some (tail (resolve fl cwd p)).
Proof. intros Hall. unfold locate. by rewrite walk_without_dotdot. Qed.

(** C6. For every output root [R], the source path is the resolved form of
    [R/src] and the generated-output path is the resolved form of [R/bin/ts].
    Both are absolute and free of empty, [.] and [..] components, and each
    denotes what the path it comes from denotes: in every filesystem in
    which the operating system can follow [R/src] (or [R/bin/ts]), the
    components of the source path (of the generated-output path) are the
    place it arrives at, on the drive of the full path; and it can always
    follow a path that never steps back with [..]. *)
Theorem C6_source_and_generated_paths h args :
  host_wf h →
  let fl := path_flavour h in
  let root := Path fl (out args) in
  ∃ l, main_locals h args = Ok l
       ∧ src_path l = resolve fl (cwd h) (joinpath fl root ["src"])
       ∧ ts_path l = resolve fl (cwd h) (joinpath fl root ["bin"; "ts"])
       ∧ is_absolute fl (src_path l) = true
       ∧ is_absolute fl (ts_path l) = true
       ∧ Forall ordinary (tail (src_path l))
       ∧ Forall ordinary (tail (ts_path l))
       ∧ (∀ fs comps,
            locate fl (cwd h) fs (joinpath fl root ["src"]) = Some comps →
            tail (src_path l) = comps)
       ∧ (∀ fs comps,
            locate fl (cwd h) fs (joinpath fl root ["bin"; "ts"]) = Some comps →
            tail (ts_path l) = comps)
       ∧ drv (src_path l)
         = drv (fullpath fl (cwd h) (joinpath fl root ["src"]))
       ∧ drv (ts_path l)
         = drv (fullpath fl (cwd h) (joinpath fl root ["bin"; "ts"]))
       ∧ (∀ fs,
            Forall (fun c => c ≠ "..")
                   (tail (fullpath fl (cwd h) (joinpath fl root ["src"]))) →
            locate fl (cwd h) fs (joinpath fl root ["src"])
            = Some (tail (src_path l)))
       ∧ (∀ fs,
            Forall (fun c => c ≠ "..")
                   (tail (fullpath fl (cwd h) (joinpath fl root ["bin"; "ts"]))) →
            locate fl (cwd h) fs (joinpath fl root ["bin"; "ts"])
            = Some (tail (ts_path l))).
Proof.
  intros Hwf fl root. eexists. split; [apply main_locals_eq|].
  simpl. fold fl.
  split; [reflexivity|]. split; [reflexivity|].
  split; [by apply resolve_is_absolute|].
  split; [by apply resolve_is_absolute|].
  split; [apply resolve_clean|]. split; [apply resolve_clean|].
  split; [intros fs comps; apply resolve_locate|].
  split; [intros fs comps; apply resolve_locate|].
  split; [reflexivity|]. split; [reflexivity|].
  split; intros fs; apply locate_without_dotdot.
Qed.

Lemma C6_witness :
  let h := posix_host protoc_succeeds in
  let args := mkargs "../../proj/./bin/.." in
  let root := Path PosixFlavour (out args) in
  host_wf h
  ∧ locate PosixFlavour (cwd h) posix_fs_built
      (joinpath PosixFlavour root ["src"]) = Some ["proj"; "src"]
  ∧ locate PosixFlavour (cwd h) posix_fs_built
      (joinpath PosixFlavour root ["bin"; "ts"]) = Some ["proj"; "bin"; "ts"]
  ∧ ∃ l, main_locals h args = Ok l
         ∧ src_path l = mkpath "" "/" ["proj"; "src"]
         ∧ ts_path l = mkpath "" "/" ["proj"; "bin"; "ts"]
         ∧ is_absolute PosixFlavour (src_path l) = true
         ∧ is_absolute PosixFlavour (ts_path l) = true
         ∧ Forall ordinary (tail (src_path l))
         ∧ Forall ordinary (tail (ts_path l))
         ∧ tail (src_path l) = ["proj"; "src"]
         ∧ tail (ts_path l) = ["proj"; "bin"; "ts"].
Proof.
  intros h args root.
  assert (host_wf h) as Hwf by reflexivity.
  assert (locate PosixFlavour (cwd h) posix_fs_built
            (joinpath PosixFlavour root ["src"]) = Some ["proj"; "src"])
    as Hsrc by (vm_compute; reflexivity).
  assert (locate PosixFlavour (cwd h) posix_fs_built
            (joinpath PosixFlavour root ["bin"; "ts"])
          = Some ["proj"; "bin"; "ts"])
    as Hts by (vm_compute; reflexivity).
  split; [exact Hwf|]. split; [exact Hsrc|]. split; [exact Hts|].
  destruct (C6_source_and_generated_paths h args Hwf)
    as (l & Hl & Hsrc_eq & Hts_eq & Ha1 & Ha2 & Ho1 & Ho2 & Hl1 & Hl2 & _).
  exists l. split; [exact Hl|].
  split; [rewrite Hsrc_eq; vm_compute; reflexivity|].
  split; [rewrite Hts_eq; vm_compute; reflexivity|].
  split; [exact Ha1|]. split; [exact Ha2|].
  split; [exact Ho1|]. split; [exact Ho2|].
  split; [exact (Hl1 _ _ Hsrc) | exact (Hl2 _ _ Hts)].
Defined.

Example scenario_relative_root :
  let h := posix_host protoc_succeeds in
  ∃ l, main_locals h (mkargs "work/../proj") = Ok l
       ∧ str PosixFlavour (src_path l) = "/home/user/proj/src"
       ∧ str PosixFlavour (ts_path l) = "/home/user/proj/bin/ts".
Proof. eexists. split; [vm_compute; reflexivity|]. split; reflexivity. Qed.

(** C4. For every output root, the command started by [main] is [protoc]
    followed by exactly seven arguments in this order: the registration of
    the TypeScript-definitions plugin, the registration of the gRPC plugin,
    the [ts], [js] and [grpc] output directives, all three pointing at the
    resolved form of [R/bin/ts], the include directive pointing at the
    resolved form of [R/src], and the literal [munkey.proto]. It is started
    once when the output directory could be made, and not at all otherwise. *)
Theorem C4_compiler_arguments h args w :
  let fl := path_flavour h in
  let root := Path fl (out args) in
  let generated := str fl (resolve fl (cwd h) (joinpath fl root ["bin"; "ts"])) in
  let source := str fl (resolve fl (cwd h) (joinpath fl root ["src"])) in
  ∃ l, main_locals h args = Ok l ∧
    calls (main h args w).2
    = calls w ++
      match mkdir fl (cwd h) (ts_path l) true true (fs w) with
      | Ok _ =>
          [[ "protoc";
             "--plugin=protoc-gen-ts=" +:+ str fl (ts_plugin_path l);
             "--plugin=protoc-gen-grpc=" +:+ str fl (grpc_plugin_path l);
             "--ts_out=grpc_js:" +:+ generated;
             "--js_out=import_style=commonjs:" +:+ generated;
             "--grpc_out=grpc_js:" +:+ generated;
             "-I" +:+ source;
             "munkey.proto" ]]
      | Raise _ => []
      end.
Proof.
  intros fl root generated source.
  pose proof (main_locals_eq h args) as Hl. simpl in Hl.
  eexists. split; [exact Hl|].
  rewrite (main_calls _ _ _ _ Hl). reflexivity.
Qed.

Example scenario_posix_command :
  calls (main (posix_host protoc_succeeds) (mkargs "/proj")
              (mkworld posix_fs [])).2
  = [[ "protoc";
       "--plugin=protoc-gen-ts=/proj/node_modules/.bin/protoc-gen-ts";
       "--plugin=protoc-gen-grpc=/proj/node_modules/.bin/grpc_tools_node_protoc_plugin";
       "--ts_out=grpc_js:/proj/bin/ts";
       "--js_out=import_style=commonjs:/proj/bin/ts";
       "--grpc_out=grpc_js:/proj/bin/ts";
       "-I/proj/src";
       "munkey.proto" ]].
Proof. vm_compute. reflexivity. Qed.

Example scenario_windows_command :
  calls (main (nt_host protoc_succeeds) (mkargs "C:\proj")
              (mkworld nt_fs [])).2
  = [[ "protoc";
       "--plugin=protoc-gen-ts=C:\proj\node_modules\.bin\protoc-gen-ts.cmd";
       "--plugin=protoc-gen-grpc=C:\proj\node_modules\.bin\grpc_tools_node_protoc_plugin.cmd";
       "--ts_out=grpc_js:C:\proj\bin\ts";
       "--js_out=import_style=commonjs:C:\proj\bin\ts";
       "--grpc_out=grpc_js:C:\proj\bin\ts";
       "-IC:\proj\src";
       "munkey.proto" ]].
Proof. vm_compute. reflexivity. Qed.

(** The paths handed to the compiler are absolute on a Windows-family host,
    and on any host when the output root is absolute (as the default, the
    working directory, is). *)
Lemma joinpath_plain_is_absolute fl p segs :
  plain fl segs → is_absolute fl (joinpath fl p segs) = is_absolute fl p.
Proof. intros Hs. by rewrite joinpath_plain. Qed.

Lemma compiler_paths_absolute h args l :
  host_wf h →
  main_locals h args = Ok l →
  String.eqb (os.name h) "nt" = true
  ∨ is_absolute (path_flavour h) (Path (path_flavour h) (out args)) = true →
  Forall (fun p => is_absolute (path_flavour h) p = true)
         [ts_plugin_path l; grpc_plugin_path l; ts_path l; src_path l].
Proof.
  intros Hwf Hl Hcase.
  pose proof (main_locals_eq h args) as Heq. simpl in Heq.
  rewrite Hl in Heq. injection Heq as ->. simpl.
  repeat constructor; auto using resolve_is_absolute.
  - destruct (String.eqb (os.name h) "nt"); [by apply resolve_is_absolute|].
    destruct Hcase as [|Habs]; [done|].
    by rewrite joinpath_plain_is_absolute by auto with plain.
  - destruct (String.eqb (os.name h) "nt"); [by apply resolve_is_absolute|].
    destruct Hcase as [|Habs]; [done|].
    by rewrite joinpath_plain_is_absolute by auto with plain.
Qed.

(** C3 (the code departs from the claim). On a POSIX host whose working
    directory is [/home/user], with the relative output root [proj], the
    generated-output and source paths are handed to the compiler in absolute
    form, but the two plugin paths are handed over as they were built,
    relative: [extend_paths] resolves the plugin paths in its Windows branch
    only. *)
Theorem C3_relative_plugin_paths_on_posix :
  let h := posix_host protoc_succeeds in
  let args := mkargs "proj" in
  ∃ l, main_locals h args = Ok l
       ∧ is_absolute PosixFlavour (ts_plugin_path l) = false
       ∧ is_absolute PosixFlavour (grpc_plugin_path l) = false
       ∧ is_absolute PosixFlavour (ts_path l) = true
       ∧ is_absolute PosixFlavour (src_path l) = true
       ∧ calls (main h args (mkworld posix_fs [])).2
         = [[ "protoc";
              "--plugin=protoc-gen-ts=proj/node_modules/.bin/protoc-gen-ts";
              "--plugin=protoc-gen-grpc=proj/node_modules/.bin/grpc_tools_node_protoc_plugin";
              "--ts_out=grpc_js:/home/user/proj/bin/ts";
              "--js_out=import_style=commonjs:/home/user/proj/bin/ts";
              "--grpc_out=grpc_js:/home/user/proj/bin/ts";
              "-I/home/user/proj/src";
              "munkey.proto" ]].
Proof.
  eexists. split; [vm_compute; reflexivity|].
  repeat split; vm_compute; reflexivity.
Qed.


(** ** The output directory *)

Lemma fs_tree_b_sound fs : fs_tree_b fs = true → fs_tree fs.
Proof.
  unfold fs_tree_b. rewrite forallb_forall. intros Hall k x Hk [nd Hnd].
  specialize (Hall (k ++ [x], nd)). simpl in Hall.
  rewrite removelast_snoc in Hall.
  assert (In (k ++ [x], nd) (map_to_list fs)) as Hin.
  { apply list_elem_of_In, elem_of_map_to_list. exact Hnd. }
  apply Hall, orb_true_iff in Hin as [Hlen|Hdir].
  - apply bool_decide_eq_true in Hlen. rewrite length_app in Hlen.
    destruct k; [done | simpl in Hlen; lia].
  - destruct (fs !! k) as [[w|]|]; try discriminate. by exists w.
Qed.

Lemma creatable_b_sound fl cwd fs p :
  creatable_b fl cwd fs p = true → creatable fl cwd fs p.
Proof.
  unfold creatable_b, creatable.
  intros [Hroot Hall]%andb_true_iff.
  apply bool_decide_eq_true in Hroot. split; [exact Hroot|].
  rewrite forallb_forall in Hall.
  intros [qd qr qt] (Hd & Hr & [k Hk]). simpl in *. subst qd qr.
  assert (In (length qt) (seq 0 (S (length (tail p))))) as Hin.
  { apply in_seq. rewrite Hk, length_app. lia. }
  apply Hall in Hin. rewrite Hk, take_app_length in Hin.
  destruct (fs !! fs_key fl cwd (mkpath (drv p) (root p) qt)) as [[[]|]|];
    first [by right | by left | discriminate].
Qed.

(** C7. The output directory is made before the compiler is started, and
    making it copes with both situations. When it is a directory already,
    the step succeeds and leaves the filesystem alone. When it can be
    created, the step succeeds, afterwards the directory and every parent of
    it are directories, and no entry has been lost. In any case the compiler
    runs only after the step has succeeded, in a filesystem where the
    directory exists; when the step raises, no compiler is started. *)
Theorem C7_output_directory_is_made h args w l :
  main_locals h args = Ok l →
  let fl := path_flavour h in
  let made := mkdir fl (cwd h) (ts_path l) true true (fs w) in
  (is_dir fl (cwd h) (fs w) (ts_path l) = true → made = Ok (fs w))
  ∧ (host_wf h → fs_tree (fs w) → creatable fl (cwd h) (fs w) (ts_path l) →
     ∃ fs1, made = Ok fs1
            ∧ (∀ q, ancestor_or_self q (ts_path l) →
                    is_dir fl (cwd h) fs1 q = true)
            ∧ fs w ⊆ fs1)
  ∧ (∀ fs1, made = Ok fs1 →
            is_dir fl (cwd h) fs1 (ts_path l) = true
            ∧ main h args w = main_try h l (mkworld fs1 (trace w))
            ∧ calls (main h args w).2 = calls w ++ [check_call_args h l])
  ∧ (∀ e, made = Raise e → calls (main h args w).2 = calls w).
Proof.
  intros Hl fl made. split; [|split; [|split]].
  - apply mkdir_existing.
  - intros Hwf Htree Hcre. apply mkdir_creates; [|assumption..].
    pose proof (main_locals_eq h args) as Heq. simpl in Heq.
    rewrite Hl in Heq. injection Heq as ->. simpl.
    by apply resolve_is_absolute.
  - intros fs1 Hmk. split; [|split].
    + by eapply mkdir_is_dir.
    + by apply main_mkdir_ok.
    + rewrite (main_calls _ _ _ _ Hl). fold fl made. by rewrite Hmk.
  - intros e He. rewrite (main_calls _ _ _ _ Hl). fold fl made.
    rewrite He. apply app_nil_r.
Qed.

Lemma C7_witness :
  let h := posix_host protoc_succeeds in
  let args := mkargs "/proj" in
  ∃ l,
    main_locals h args = Ok l
    ∧ host_wf h
    ∧ fs_tree posix_fs
    ∧ creatable PosixFlavour (cwd h) posix_fs (ts_path l)
    ∧ is_dir PosixFlavour (cwd h) posix_fs (ts_path l) = false
    ∧ (∃ fs1, mkdir PosixFlavour (cwd h) (ts_path l) true true posix_fs = Ok fs1
              ∧ (∀ q, ancestor_or_self q (ts_path l) →
                      is_dir PosixFlavour (cwd h) fs1 q = true)
              ∧ posix_fs ⊆ fs1
              ∧ is_dir PosixFlavour (cwd h) fs1 (ts_path l) = true
              ∧ calls (main h args (mkworld posix_fs [])).2
                = [check_call_args h l])
    ∧ is_dir PosixFlavour (cwd h) posix_fs_built (ts_path l) = true
    ∧ mkdir PosixFlavour (cwd h) (ts_path l) true true posix_fs_built
      = Ok posix_fs_built
    ∧ mkdir PosixFlavour (cwd h) (ts_path l) true true posix_fs_readonly
      = Raise (OSError PermissionError)
    ∧ calls (main h args (mkworld posix_fs_readonly [])).2 = [].
Proof.
  intros h args. eexists.
  split; [exact (main_locals_eq h args)|].
  assert (host_wf h) as Hwf by reflexivity.
  assert (fs_tree posix_fs) as Htree
    by (apply fs_tree_b_sound; vm_compute; reflexivity).
  assert (creatable PosixFlavour (cwd h) posix_fs
            (ts_path (from_ok (mklocals "" (cwd h) (cwd h) (cwd h) (cwd h)
                                        (cwd h) (cwd h) (cwd h))
                              (main_locals h args)))) as Hcre
    by (apply creatable_b_sound; vm_compute; reflexivity).
  assert (mkdir PosixFlavour (cwd h) (mkpath "" "/" ["proj"; "bin"; "ts"])
            true true posix_fs_readonly
          = Raise (OSError PermissionError)) as Hro
    by (vm_compute; reflexivity).
  split; [exact Hwf|]. split; [exact Htree|]. split; [exact Hcre|].
  split; [vm_compute; reflexivity|].
  split.
  - destruct (C7_output_directory_is_made h args (mkworld posix_fs []) _
                (main_locals_eq h args)) as (_ & Hcreate & Hrun & _).
    destruct (Hcreate Hwf Htree Hcre) as (fs1 & Hmk & Hdirs & Hsub).
    exists fs1. destruct (Hrun fs1 Hmk) as (Hdir & _ & Hcalls).
    repeat split; assumption.
  - destruct (C7_output_directory_is_made h args (mkworld posix_fs_built []) _
                (main_locals_eq h args)) as (Hexists & _ & _ & _).
    split; [vm_compute; reflexivity|].
    split; [apply Hexists; vm_compute; reflexivity|].
    split; [exact Hro|].
    destruct (C7_output_directory_is_made h args (mkworld posix_fs_readonly []) _
                (main_locals_eq h args)) as (_ & _ & _ & Hfail).
    exact (Hfail (OSError PermissionError) Hro).
Defined.


(** ** [extend_paths] *)

Lemma mapM_result_cons {A B} (f : A → result B) x l :
  mapM f (x :: l)
  = match f x with
    | Ok y => match mapM f l with Ok k => Ok (y :: k) | Raise e => Raise e end
    | Raise e => Raise e
    end.
Proof. reflexivity. Qed.

Lemma mapM_result_Forall2 {A B} (f : A → result B) l k :
  mapM f l = Ok k → Forall2 (fun x y => f x = Ok y) l k.
Proof.
  revert k. induction l as [|x l IH]; intros k.
  - intros [= <-]. constructor.
  - rewrite mapM_result_cons.
    destruct (f x) as [y|] eqn:Hx; [|discriminate].
    destruct (mapM f l) as [k'|]; [|discriminate].
    intros [= <-]. constructor; auto.
Qed.

Lemma mapM_result_ok {A B} (f : A → result B) l :
  Forall (fun x => ∃ y, f x = Ok y) l → ∃ k, mapM f l = Ok k.
Proof.
  induction 1 as [|x l [y Hy] _ [k Hk]].
  - by exists [].
  - exists (y :: k). by rewrite mapM_result_cons, Hy, Hk.
Qed.

Lemma mapM_result_raise {A B} (f : A → result B) l e :
  Forall (fun x => (∃ y, f x = Ok y) ∨ f x = Raise e) l →
  Exists (fun x => f x = Raise e) l →
  mapM f l = Raise e.
Proof.
  induction 1 as [|x l Hx Hall IH]; intros Hex.
  - by apply Exists_nil in Hex.
  - rewrite mapM_result_cons.
    destruct Hx as [[y Hy]| ->]; [|reflexivity].
    rewrite Hy. apply Exists_cons in Hex as [Hex|Hex]; [congruence|].
    by rewrite IH.
Qed.

(** The element that the Windows branch of [extend_paths] makes of a path. *)
Lemma extend_one_cases h p :
  let fl := path_flavour h in
  let f := fun win_path =>
             p' ← with_suffix fl win_path ".cmd"; mret (resolve fl (cwd h) p') in
  (pathlib.name p ≠ "" ∧ ∃ q, f p = Ok q)
  ∨ (pathlib.name p = "" ∧ f p = Raise (ValueError "has an empty name")).
Proof.
  intros fl f. unfold f.
  destruct (decide (pathlib.name p = "")) as [Hnm|Hnm].
  - right. split; [done|]. by rewrite with_suffix_cmd_empty_name.
  - left. split; [done|].
    destruct (with_suffix_cmd_ok fl p Hnm) as [q ->]. by eexists.
Qed.

(** C10, negatively: on a Windows-family host [extend_paths] does not
    return for every list of paths. Given the one path [C:\], which has no
    final component, it raises [ValueError] and returns no list at all. *)
Lemma C10_extend_paths_can_raise :
  extend_paths (nt_host protoc_succeeds) [mkpath "C:" "\" []]
  = Raise (ValueError "has an empty name")
  ∧ ¬ ∃ l', extend_paths (nt_host protoc_succeeds) [mkpath "C:" "\" []] = Ok l'
            ∧ length l' = length [mkpath "C:" "\" []].
Proof.
  split; [reflexivity|]. intros (l' & Hl' & _). discriminate Hl'.
Qed.

(** C10, as amended. On every host other than a Windows-family one,
    [extend_paths] returns its input as it is, unresolved. On every host it
    returns a list whenever each input path has a final component (on a
    Windows-family host it otherwise raises the [ValueError] of
    [with_suffix]), and the list it returns has the length of the input and
    its order: on a Windows-family host element [i] is the resolved form of
    input [i] with its suffix replaced by [.cmd]. *)
Theorem C10_extend_paths_shape h path_list :
  let fl := path_flavour h in
  let nt := String.eqb (os.name h) "nt" in
  (nt = false → extend_paths h path_list = Ok path_list)
  ∧ (Forall (fun p => pathlib.name p ≠ "") path_list →
     ∃ l', extend_paths h path_list = Ok l')
  ∧ (nt = true → Exists (fun p => pathlib.name p = "") path_list →
     extend_paths h path_list = Raise (ValueError "has an empty name"))
  ∧ (∀ l', extend_paths h path_list = Ok l' →
       length l' = length path_list
       ∧ Forall2 (fun p q =>
                    if nt
                    then ∃ p', with_suffix fl p ".cmd" = Ok p'
                               ∧ q = resolve fl (cwd h) p'
                    else q = p)
                 path_list l').
Proof.
  intros fl nt. unfold extend_paths. fold fl nt.
  split; [|split; [|split]].
  - by intros ->.
  - intros Hall. destruct nt; [|by eexists].
    apply mapM_result_ok. eapply Forall_impl; [exact Hall|].
    intros p Hnm. simpl in Hnm.
    destruct (extend_one_cases h p) as [[_ Hq]|[Hnm' _]]; [exact Hq|done].
  - intros -> Hex. apply mapM_result_raise.
    + apply Forall_forall. intros p _.
      destruct (extend_one_cases h p) as [[_ Hq]|[_ Hr]]; [by left|by right].
    + eapply Exists_impl; [exact Hex|]. intros p Hnm. simpl in Hnm.
      destruct (extend_one_cases h p) as [[Hnm' _]|[_ Hr]]; [done|exact Hr].
  - intros l'. destruct nt.
    + intros HF%mapM_result_Forall2. split.
      * symmetry. by eapply Forall2_length.
      * eapply Forall2_impl; [exact HF|]. intros p q Hpq. simpl in Hpq.
        fold fl in Hpq.
        destruct (with_suffix fl p ".cmd") as [p'|]; [|discriminate].
        exists p'. split; [reflexivity|]. by injection Hpq as <-.
    + intros [= <-]. split; [reflexivity|].
      apply Forall2_same_length_lookup_2; [reflexivity|]. congruence.
Qed.

Lemma C10_witness :
  let p1 := mkpath "" "" ["proj"; "node_modules"; ".bin"; "protoc-gen-ts"] in
  let p2 := mkpath "C:" "\" ["proj"; "tool.exe"] in
  let p3 := mkpath "C:" "\" [] in
  extend_paths (posix_host protoc_succeeds) [p1; p2; p3] = Ok [p1; p2; p3]
  ∧ extend_paths (nt_host protoc_succeeds) [p1; p2]
    = Ok [ mkpath "C:" "\" ["Users"; "user"; "proj"; "node_modules"; ".bin";
                            "protoc-gen-ts.cmd"];
           mkpath "C:" "\" ["proj"; "tool.cmd"] ]
  ∧ extend_paths (nt_host protoc_succeeds) [p1; p3; p2]
    = Raise (ValueError "has an empty name")
  ∧ length [ mkpath "C:" "\" ["Users"; "user"; "proj"; "node_modules"; ".bin";
                              "protoc-gen-ts.cmd"];
             mkpath "C:" "\" ["proj"; "tool.cmd"] ] = length [p1; p2].
Proof.
  intros p1 p2 p3.
  destruct (C10_extend_paths_shape (posix_host protoc_succeeds) [p1; p2; p3])
    as (Hid & _ & _ & _).
  destruct (C10_extend_paths_shape (nt_host protoc_succeeds) [p1; p2])
    as (_ & Hret & _ & Hshape).
  destruct (C10_extend_paths_shape (nt_host protoc_succeeds) [p1; p3; p2])
    as (_ & _ & Hraise & _).
  split; [apply Hid; reflexivity|].
  destruct Hret as [l' Hl'].
  { repeat constructor; discriminate. }
  assert (l' = [ mkpath "C:" "\" ["Users"; "user"; "proj"; "node_modules"; ".bin";
                                  "protoc-gen-ts.cmd"];
                 mkpath "C:" "\" ["proj"; "tool.cmd"] ]) as ->.
  { revert Hl'. vm_compute. congruence. }
  split; [exact Hl'|].
  split; [apply Hraise; [reflexivity|]|].
  - apply Exists_cons_tl, Exists_cons_hd. reflexivity.
  - exact (proj1 (Hshape _ Hl')).
Defined.

(* ===================================================================== *)
(** * Further properties of the script *)
(* ===================================================================== *)

(** ** Every way [main] can end *)

(** X1. When the output directory can be made and the compiler exits with
    status 0, [main] returns normally, nothing is printed, the filesystem is
    the one the compiler left, and the exit status of the tool is 0. *)
Theorem X1_compiler_success h args w l fs1 fs2 :
  main_locals h args = Ok l →
  mkdir (path_flavour h) (cwd h) (ts_path l) true true (fs w) = Ok fs1 →
  exec h (check_call_args h l) fs1 = Exited 0 fs2 →
  main h args w
  = (Ok tt, mkworld fs2 (trace w ++ [Call (check_call_args h l)]))
  ∧ printed (main h args w).2 = printed w
  ∧ exit_status (main h args w).1 = 0%Z.
Proof.
  intros Hl Hmk Hexec.
  rewrite (main_mkdir_ok _ _ _ _ _ Hl Hmk).
  rewrite (main_try_exited_zero h l _ fs2) by assumption.
  repeat split. unfold printed. simpl. rewrite omap_app. simpl.
  by rewrite app_nil_r.
Qed.

Lemma X1_witness :
  let h := posix_host protoc_succeeds in
  let args := mkargs "/proj" in
  let w := mkworld posix_fs [] in
  ∃ l fs1 fs2,
    main_locals h args = Ok l
    ∧ mkdir (path_flavour h) (cwd h) (ts_path l) true true (fs w) = Ok fs1
    ∧ exec h (check_call_args h l) fs1 = Exited 0 fs2
    ∧ main h args w
      = (Ok tt, mkworld fs2 (trace w ++ [Call (check_call_args h l)]))
    ∧ printed (main h args w).2 = printed w
    ∧ exit_status (main h args w).1 = 0%Z.
Proof.
  intros h args w. eexists _, _, _.
  split; [exact (main_locals_eq h args)|].
  split; [evaluates|].
  split; [reflexivity|].
  eapply (X1_compiler_success h args w _ _ _ (main_locals_eq h args));
    [evaluates | reflexivity].
Defined.

(** X2. The exit status of the tool is 0 exactly when the output directory
    could be made and the compiler could be started; the status with which
    the compiler exits plays no part in it. *)
Theorem X2_exit_status_ignores_compiler_status h args w l :
  main_locals h args = Ok l →
  exit_status (main h args w).1 = 0%Z
  ↔ ∃ fs1 rc fs2,
      mkdir (path_flavour h) (cwd h) (ts_path l) true true (fs w) = Ok fs1
      ∧ exec h (check_call_args h l) fs1 = Exited rc fs2.
Proof.
  intros Hl.
  destruct (mkdir _ _ (ts_path l) true true (fs w)) as [fs1|e] eqn:Hmk.
  - rewrite (main_mkdir_ok _ _ _ _ _ Hl Hmk).
    destruct (exec h (check_call_args h l) fs1) as [rc fs2|e] eqn:Hexec.
    + split; [intros _; by exists fs1, rc, fs2|]. intros _.
      destruct (decide (rc = 0%Z)) as [->|Hrc].
      * by rewrite (main_try_exited_zero h l _ fs2).
      * by rewrite (main_try_exited_nonzero h l _ rc fs2).
    + rewrite (main_try_spawn_failed h l _ e) by assumption. simpl.
      split; [discriminate|]. intros (fs1' & rc & fs2 & [= <-] & Hexec').
      congruence.
  - rewrite (main_mkdir_raises _ _ _ _ _ Hl Hmk). simpl.
    split; [discriminate|]. by intros (fs1 & rc & fs2 & Hmk' & _).
Qed.

Lemma X2_witness :
  let h := posix_host protoc_fails in
  let args := mkargs "/proj" in
  let w := mkworld posix_fs [] in
  ∃ l,
    main_locals h args = Ok l
    ∧ (exit_status (main h args w).1 = 0%Z
       ↔ ∃ fs1 rc fs2,
           mkdir (path_flavour h) (cwd h) (ts_path l) true true (fs w) = Ok fs1
           ∧ exec h (check_call_args h l) fs1 = Exited rc fs2).
Proof.
  intros h args w. eexists.
  split; [exact (main_locals_eq h args)|].
  exact (X2_exit_status_ignores_compiler_status h args w _
           (main_locals_eq h args)).
Defined.

(** X3. [main] prints at most one thing, and only the [CalledProcessError]
    of a compiler that ran and exited with a status other than 0. A
    directory that cannot be made, a compiler that cannot be started and a
    compiler that succeeds all leave the output untouched. *)
Theorem X3_only_compiler_failures_are_printed h args w l :
  main_locals h args = Ok l →
  printed (main h args w).2
  = printed w ++
    match mkdir (path_flavour h) (cwd h) (ts_path l) true true (fs w) with
    | Ok fs1 =>
        match exec h (check_call_args h l) fs1 with
        | Exited rc _ =>
            if (rc =? 0)%Z then []
            else [CalledProcessError rc (check_call_args h l)]
        | SpawnFailed _ => []
        end
    | Raise _ => []
    end.
Proof.
  intros Hl.
  destruct (mkdir _ _ (ts_path l) true true (fs w)) as [fs1|e] eqn:Hmk.
  - rewrite (main_mkdir_ok _ _ _ _ _ Hl Hmk).
    destruct (exec h (check_call_args h l) fs1) as [rc fs2|e] eqn:Hexec.
    + destruct (decide (rc = 0%Z)) as [->|Hrc].
      * rewrite (main_try_exited_zero h l _ fs2) by assumption.
        unfold printed. simpl. by rewrite omap_app.
      * rewrite (main_try_exited_nonzero h l _ rc fs2) by assumption.
        apply Z.eqb_neq in Hrc. rewrite Hrc.
        unfold printed. simpl. by rewrite omap_app.
    + rewrite (main_try_spawn_failed h l _ e) by assumption.
      unfold printed. simpl. by rewrite omap_app.
  - rewrite (main_mkdir_raises _ _ _ _ _ Hl Hmk). by rewrite app_nil_r.
Qed.

Lemma X3_witness :
  let h := posix_host protoc_fails in
  let args := mkargs "/proj" in
  let w := mkworld posix_fs [] in
  ∃ l,
    main_locals h args = Ok l
    ∧ printed (main h args w).2
      = [CalledProcessError 1 (check_call_args h l)].
Proof.
  intros h args w. eexists.
  split; [exact (main_locals_eq h args)|].
  rewrite (X3_only_compiler_failures_are_printed h args w _
             (main_locals_eq h args)).
  rewrite (from_ok_eq ∅ (mkdir _ _ _ true true (fs w)))
    by (vm_compute; reflexivity).
  reflexivity.
Defined.

(** ** More on the output directory *)

Lemma mkdir_rec_file_in_the_way fl cwd d r rtail parents exist_ok fs :
  fs !! fs_key fl cwd (mkpath d r (rev rtail)) = Some File →
  mkdir_rec fl cwd d r rtail parents exist_ok fs
  = Raise (OSError FileExistsError).
Proof.
  intros Hf.
  assert (os_mkdir fl cwd (mkpath d r (rev rtail)) fs
          = Raise (OSError FileExistsError)) as Hos.
  { unfold os_mkdir. by rewrite Hf. }
  assert (is_dir fl cwd fs (mkpath d r (rev rtail)) = false) as Hd.
  { unfold is_dir. by rewrite Hf. }
  destruct rtail as [|x rp]; simpl in Hos, Hd |- *; rewrite Hos;
    unfold mkdir_handle; rewrite Hd; by destruct exist_ok.
Qed.

(** X4. When a regular file sits where the output directory should be,
    [exist_ok] does not help: [main] ends with [FileExistsError], the world
    is as it was and no compiler is started. *)
Theorem X4_file_in_the_way h args w l :
  main_locals h args = Ok l →
  fs w !! fs_key (path_flavour h) (cwd h) (ts_path l) = Some File →
  main h args w = (Raise (OSError FileExistsError), w)
  ∧ calls (main h args w).2 = calls w.
Proof.
  intros Hl Hf.
  assert (mkdir (path_flavour h) (cwd h) (ts_path l) true true (fs w)
          = Raise (OSError FileExistsError)) as Hmk.
  { unfold mkdir. apply mkdir_rec_file_in_the_way.
    rewrite rev_involutive. by destruct (ts_path l). }
  by rewrite (main_mkdir_raises _ _ _ _ _ Hl Hmk).
Qed.

Lemma X4_witness :
  let h := posix_host protoc_succeeds in
  let args := mkargs "/proj" in
  let w := mkworld (<[ ["/"; "proj"; "bin"; "ts"] := File ]> posix_fs_built) [] in
  ∃ l,
    main_locals h args = Ok l
    ∧ fs w !! fs_key (path_flavour h) (cwd h) (ts_path l) = Some File
    ∧ main h args w = (Raise (OSError FileExistsError), w)
    ∧ calls (main h args w).2 = calls w.
Proof.
  intros h args w. eexists.
  split; [exact (main_locals_eq h args)|].
  split; [vm_compute; reflexivity|].
  apply (X4_file_in_the_way h args w _ (main_locals_eq h args)).
  vm_compute. reflexivity.
Defined.

(** X5. Making the output directory is idempotent: on the filesystem that a
    successful step produced, the step succeeds again and changes nothing, so
    a second run of [main] goes straight to the compiler. *)
Theorem X5_directory_step_is_idempotent h args w l fs1 :
  main_locals h args = Ok l →
  mkdir (path_flavour h) (cwd h) (ts_path l) true true (fs w) = Ok fs1 →
  mkdir (path_flavour h) (cwd h) (ts_path l) true true fs1 = Ok fs1
  ∧ ∀ w', fs w' = fs1 → main h args w' = main_try h l w'.
Proof.
  intros Hl Hmk.
  assert (mkdir (path_flavour h) (cwd h) (ts_path l) true true fs1 = Ok fs1)
    as Hagain by (eapply mkdir_existing, mkdir_is_dir; exact Hmk).
  split; [exact Hagain|].
  intros [fs' tr] Hfs. simpl in Hfs. subst fs'.
  by rewrite (main_mkdir_ok h args l _ fs1 Hl).
Qed.

Lemma X5_witness :
  let h := posix_host protoc_succeeds in
  let args := mkargs "/proj" in
  let w := mkworld posix_fs [] in
  ∃ l fs1,
    main_locals h args = Ok l
    ∧ mkdir (path_flavour h) (cwd h) (ts_path l) true true (fs w) = Ok fs1
    ∧ mkdir (path_flavour h) (cwd h) (ts_path l) true true fs1 = Ok fs1
    ∧ ∀ w', fs w' = fs1 → main h args w' = main_try h l w'.
Proof.
  intros h args w. eexists _, _.
  split; [exact (main_locals_eq h args)|].
  split; [evaluates|].
  eapply (X5_directory_step_is_idempotent h args w _ _ (main_locals_eq h args)).
  evaluates.
Defined.

Lemma on_chain_dec a t k : on_chain a t k ∨ ¬ on_chain a t k.
Proof.
  destruct k as [|b k']; [right; by intros [n Hn]|].
  destruct (decide (b = a)) as [->|Hb]; [|right; intros [n Hn]; congruence].
  destruct (decide (k' = take (length k') t)) as [Hk|Hk].
  - left. exists (length k'). by rewrite <- Hk.
  - right. intros [n Hn]. injection Hn as ->. apply Hk.
    rewrite length_take. destruct (decide (n ≤ length t)).
    + by rewrite Nat.min_l.
    + rewrite Nat.min_r, !take_ge by lia. done.
Qed.

Lemma on_chain_parent a t k x : on_chain a t (k ++ [x]) → k ≠ [] → on_chain a t k.
Proof.
  intros [n Hn] Hk. destruct k as [|b k']; [done|].
  simpl in Hn. injection Hn as -> Hn. exists (length k').
  assert (length k' `min` n = length k') as Hlen.
  { apply (f_equal length) in Hn.
    rewrite length_app, length_take in Hn. simpl in Hn. lia. }
  by rewrite <- Hlen, <- take_take, <- Hn, take_app_length.
Qed.

Lemma on_chain_ancestor d r t k :
  on_chain (d +:+ r) t k →
  ∃ q, ancestor_or_self q (mkpath d r t) ∧ k = (drv q +:+ root q) :: tail q.
Proof.
  intros [n ->]. exists (mkpath d r (take n t)).
  repeat split. apply prefix_take.
Qed.

(** X6. Making a creatable output directory in a tree only adds: every
    entry of the filesystem is as it was, except that the missing ones among
    the output directory and its parents are now directories open to new
    entries; and the filesystem is still a tree. *)
Theorem X6_directory_step_only_adds h args w l :
  main_locals h args = Ok l →
  host_wf h →
  fs_tree (fs w) →
  creatable (path_flavour h) (cwd h) (fs w) (ts_path l) →
  ∃ fs1,
    mkdir (path_flavour h) (cwd h) (ts_path l) true true (fs w) = Ok fs1
    ∧ fs_tree fs1
    ∧ ∀ k, fs1 !! k = fs w !! k
           ∨ (fs w !! k = None
              ∧ fs1 !! k = Some (Dir true)
              ∧ ∃ q, ancestor_or_self q (ts_path l)
                     ∧ k = fs_key (path_flavour h) (cwd h) q).
Proof.
  intros Hl Hwf Htree [Hroot Hchain].
  assert (is_absolute (path_flavour h) (ts_path l) = true) as Habs.
  { pose proof (main_locals_eq h args) as Heq. simpl in Heq.
    rewrite Hl in Heq. injection Heq as ->. simpl.
    by apply resolve_is_absolute. }
  destruct (ts_path l) as [d r t]. simpl in Hroot.
  set (fl := path_flavour h) in *.
  assert (is_absolute fl (mkpath d r []) = true) as Habs0 by exact Habs.
  rewrite (key_abs fl (cwd h) d r Habs0) in Hroot.
  assert (∀ k, on_chain (d +:+ r) t k →
               fs w !! k = None ∨ fs w !! k = Some (Dir true)) as Hchain'.
  { intros k [n ->]. rewrite <- (key_abs fl (cwd h) d r Habs0).
    apply Hchain. repeat split. apply prefix_take. }
  destruct (mkdir_rec_creates fl (cwd h) d r Habs0 (rev t) (fs w) Htree Hroot)
    as (fs1 & Hmk & Hdirs & Hsame & Hsub).
  { by rewrite rev_involutive. }
  rewrite rev_involutive in Hdirs, Hsame.
  exists fs1. split; [exact Hmk|]. split.
  - intros k x Hk [nd Hnd].
    destruct (on_chain_dec (d +:+ r) t k) as [Hon|Hoff].
    { exists true. by apply Hdirs. }
    rewrite (Hsame k Hoff).
    apply (Htree k x); [exact Hk|].
    rewrite <- Hsame; [by rewrite Hnd|].
    intros Hon. by apply Hoff, (on_chain_parent _ _ _ x).
  - intros k. destruct (on_chain_dec (d +:+ r) t k) as [Hon|Hoff].
    + destruct (Hchain' k Hon) as [Hnone|Hdir].
      * right. split; [exact Hnone|]. split; [by apply Hdirs|].
        destruct (on_chain_ancestor d r t k Hon) as (q & Hq & ->).
        exists q. split; [exact Hq|].
        destruct Hq as (Hd & Hr & _). destruct q as [qd qr qt].
        simpl in *. subst qd qr. by rewrite (key_abs fl (cwd h) d r Habs0).
      * left. by rewrite Hdir, (Hdirs k Hon).
    + left. by apply Hsame.
Qed.

Lemma X6_witness :
  let h := posix_host protoc_succeeds in
  let args := mkargs "/proj" in
  let w := mkworld posix_fs [] in
  ∃ l,
    main_locals h args = Ok l
    ∧ host_wf h
    ∧ fs_tree (fs w)
    ∧ creatable (path_flavour h) (cwd h) (fs w) (ts_path l)
    ∧ ∃ fs1,
        mkdir (path_flavour h) (cwd h) (ts_path l) true true (fs w) = Ok fs1
        ∧ fs_tree fs1
        ∧ ∀ k, fs1 !! k = fs w !! k
               ∨ (fs w !! k = None
                  ∧ fs1 !! k = Some (Dir true)
                  ∧ ∃ q, ancestor_or_self q (ts_path l)
                         ∧ k = fs_key (path_flavour h) (cwd h) q).
Proof.
  intros h args w. eexists.
  split; [exact (main_locals_eq h args)|].
  assert (host_wf h) as Hwf by reflexivity.
  assert (fs_tree (fs w)) as Htree
    by (apply fs_tree_b_sound; vm_compute; reflexivity).
  assert (creatable (path_flavour h) (cwd h) (fs w)
            (mkpath "" "/" ["proj"; "bin"; "ts"])) as Hcre
    by (apply creatable_b_sound; vm_compute; reflexivity).
  split; [exact Hwf|]. split; [exact Htree|]. split; [exact Hcre|].
  exact (X6_directory_step_only_adds h args w _ (main_locals_eq h args)
           Hwf Htree Hcre).
Defined.

(** ** The layout under the output root *)

Lemma normalize_app_ordinary stack comps segs :
  Forall ordinary segs →
  normalize stack (comps ++ segs) = normalize stack comps ++ segs.
Proof.
  induction segs as [|c segs IH] using rev_ind; intros Hall.
  - by rewrite !app_nil_r.
  - apply Forall_app in Hall as [Hsegs Hc]. inversion_clear Hc.
    by rewrite !app_assoc, normalize_snoc, IH.
Qed.

Lemma fullpath_app fl cwd d r t segs :
  fullpath fl cwd (mkpath d r (t ++ segs))
  = mkpath (drv (fullpath fl cwd (mkpath d r t)))
           (root (fullpath fl cwd (mkpath d r t)))
           (tail (fullpath fl cwd (mkpath d r t)) ++ segs).
Proof.
  unfold fullpath. destruct fl; simpl.
  - destruct (pystr.nonempty r); simpl; [done | by rewrite app_assoc].
  - destruct (pystr.nonempty r); simpl.
    + by destruct (pystr.nonempty d).
    + destruct (negb _ || _); simpl; [by rewrite app_assoc | done].
Qed.

(** Resolution commutes with the joining of ordinary segments. *)
Lemma resolve_joinpath fl cwd p segs :
  plain fl segs → Forall ordinary segs →
  resolve fl cwd (joinpath fl p segs) = joinpath fl (resolve fl cwd p) segs.
Proof.
  intros Hplain Hord. rewrite !joinpath_plain by assumption.
  destruct p as [d r t]. unfold resolve. simpl drv. simpl root. simpl tail.
  rewrite fullpath_app. simpl. by rewrite normalize_app_ordinary.
Qed.

Lemma parent_joinpath_one fl p seg :
  plain fl [seg] → parent (joinpath fl p [seg]) = p.
Proof.
  intros Hplain. rewrite joinpath_plain by assumption.
  unfold parent. simpl. rewrite removelast_snoc. by destruct p.
Qed.

Ltac ordinary_segments :=
  repeat constructor; apply ordinary_name; discriminate.

(** X7. In a filesystem without symbolic links (the filesystems of this
    development; a link at [src], [bin] or [node_modules] would lead
    elsewhere), everything [main] resolves lies under the resolved output
    root: the source path is [src] under it, the generated-output path is
    [bin/ts] under it, so the parent of the source path and the grandparent
    of the generated-output path are the resolved output root itself; on a
    Windows-family host the two plugin paths are [node_modules/.bin/<plugin
    name>.cmd] under it as well. *)
Theorem X7_paths_lie_under_the_resolved_root h args :
  let fl := path_flavour h in
  let resolved_root := resolve fl (cwd h) (Path fl (out args)) in
  ∃ l, main_locals h args = Ok l
       ∧ src_path l = joinpath fl resolved_root ["src"]
       ∧ ts_path l = joinpath fl resolved_root ["bin"; "ts"]
       ∧ parent (src_path l) = resolved_root
       ∧ parent (parent (ts_path l)) = resolved_root
       ∧ (String.eqb (os.name h) "nt" = true →
          ts_plugin_path l
          = joinpath fl resolved_root
              ["node_modules"; ".bin"; "protoc-gen-ts.cmd"]
          ∧ grpc_plugin_path l
            = joinpath fl resolved_root
                ["node_modules"; ".bin"; "grpc_tools_node_protoc_plugin.cmd"]).
Proof.
  intros fl resolved_root. eexists. split; [apply main_locals_eq|].
  simpl. fold fl.
  rewrite !(resolve_joinpath fl) by (auto with plain || ordinary_segments).
  fold resolved_root.
  split; [reflexivity|]. split; [reflexivity|].
  split; [by apply parent_joinpath_one; auto with plain|].
  split.
  - change ["bin"; "ts"] with (["bin"] ++ ["ts"]).
    rewrite <- (joinpath_joinpath fl resolved_root ["bin"] ["ts"])
      by auto with plain.
    by rewrite !parent_joinpath_one by auto with plain.
  - by intros ->.
Qed.

(** ** More on [extend_paths] *)

Lemma string_length_app (s t : string) :
  String.length (s +:+ t) = String.length s + String.length t.
Proof.
  induction s as [|c s IH]; [reflexivity|].
  change (S (String.length (s +:+ t)) = S (String.length s + String.length t)).
  by rewrite IH.
Qed.

Lemma substring_all (s : string) : String.substring 0 (String.length s) s = s.
Proof. induction s as [|c s IH]; simpl; [reflexivity | by rewrite IH]. Qed.

Lemma substring_app_l (s t : string) :
  String.substring 0 (String.length s) (s +:+ t) = s.
Proof.
  induction s as [|c s IH]; [by destruct t|].
  change (String c (String.substring 0 (String.length s) (s +:+ t)) = String c s).
  by rewrite IH.
Qed.

Lemma substring_app_r (s t : string) m :
  String.substring (String.length s) m (s +:+ t) = String.substring 0 m t.
Proof. induction s as [|c s IH]; [reflexivity | exact IH]. Qed.

Lemma substring_length_le n m (s : string) :
  String.length (String.substring n m s) ≤ m.
Proof.
  revert n m. induction s as [|c s IH]; intros n m.
  - destruct n, m; simpl; lia.
  - destruct n as [|n].
    + destruct m as [|m]; simpl; [lia|]. specialize (IH 0 m). lia.
    + simpl. apply IH.
Qed.

Lemma rfind_app c (s t : string) :
  pystr.rfind c (s +:+ t)
  = match pystr.rfind c t with
    | Some i => Some (String.length s + i)
    | None => pystr.rfind c s
    end.
Proof.
  induction s as [|d s IH].
  { change (pystr.rfind c t
            = match pystr.rfind c t with
              | Some i => Some i
              | None => None
              end).
    by destruct (pystr.rfind c t). }
  change (pystr.rfind c (String d (s +:+ t))
          = match pystr.rfind c t with
            | Some i => Some (S (String.length s) + i)
            | None => pystr.rfind c (String d s)
            end).
  simpl pystr.rfind at 1. rewrite IH.
  destruct (pystr.rfind c t); [reflexivity|]. reflexivity.
Qed.

(** A name that ends in [.cmd] after a non-empty stem has the suffix [.cmd]. *)
Lemma suffix_of_cmd (stem : string) :
  stem ≠ "" → suffix_of (stem +:+ ".cmd") = ".cmd".
Proof.
  intros Hstem. unfold suffix_of, pystr.from.
  rewrite rfind_app, string_length_app.
  change (pystr.rfind "."%char ".cmd") with (Some 0).
  change (String.length ".cmd") with 4.
  cbv iota beta. rewrite Nat.add_0_r.
  assert (0 < String.length stem) as Hlen by (destruct stem; simpl; [done|lia]).
  replace (0 <? String.length stem) with true by (symmetry; by apply Nat.ltb_lt).
  replace (String.length stem <? String.length stem + 4 - 1) with true
    by (symmetry; apply Nat.ltb_lt; lia).
  simpl andb. cbv iota.
  replace (String.length stem + 4 - String.length stem) with 4 by lia.
  by rewrite substring_app_r.
Qed.

Lemma cmd_name_ordinary (stem : string) : ordinary (stem +:+ ".cmd").
Proof.
  assert (4 ≤ String.length (stem +:+ ".cmd")) as Hlen
    by (rewrite string_length_app; simpl; lia).
  repeat split; intros Heq; rewrite Heq in Hlen; simpl in Hlen; lia.
Qed.

(** What [with_suffix] returns: the same path with the suffix of its name
    replaced by [.cmd] after a stem that is never empty. *)
Lemma with_suffix_cmd_shape fl p q :
  with_suffix fl p ".cmd" = Ok q →
  ∃ stem, stem ≠ ""
          ∧ q = mkpath (drv p) (root p) (removelast (tail p) ++ [stem +:+ ".cmd"]).
Proof.
  unfold with_suffix.
  replace (pystr.contains (sep fl) ".cmd"
           || match altsep fl with
              | Some a => pystr.contains a ".cmd"
              | None => false
              end) with false by (by destruct fl).
  simpl.
  destruct (pystr.nonempty (pathlib.name p)) eqn:Hnm; simpl; [|discriminate].
  apply nonempty_true in Hnm.
  unfold suffix, suffix_of.
  destruct (pystr.rfind "." (pathlib.name p)) as [i|] eqn:Hi.
  - destruct ((0 <? i) && (i <? String.length (pathlib.name p) - 1)) eqn:Hb.
    + apply andb_true_iff in Hb as [H0%Nat.ltb_lt H1%Nat.ltb_lt].
      assert (String.length (pystr.from i (pathlib.name p))
              ≤ String.length (pathlib.name p) - i) as Hle
        by apply substring_length_le.
      destruct (pystr.nonempty (pystr.from i (pathlib.name p))); simpl;
        intros [= <-].
      * eexists. split; [|reflexivity].
        unfold pystr.upto.
        destruct (pathlib.name p) as [|c nm]; [done|].
        destruct (String.length (String c nm)
                  - String.length (pystr.from i (String c nm))) eqn:Hk;
          [simpl in *; lia | done].
      * by eexists.
    + simpl. intros [= <-]. by eexists.
  - simpl. intros [= <-]. by eexists.
Qed.

Lemma resolve_tail_snoc fl cwd d r t c :
  ordinary c →
  ∃ t', tail (resolve fl cwd (mkpath d r (t ++ [c]))) = t' ++ [c].
Proof.
  intros Hc. unfold resolve.
  destruct (fullpath_tail_snoc fl cwd d r t c) as [t' Ht'].
  simpl tail. rewrite Ht', normalize_snoc by assumption. by eexists.
Qed.

Lemma nt_flavour h :
  String.eqb (os.name h) "nt" = true → path_flavour h = WindowsFlavour.
Proof. unfold path_flavour, flavour_of. by intros ->. Qed.

Lemma substring_length n m (s : string) :
  n + m ≤ String.length s → String.length (String.substring n m s) = m.
Proof.
  revert n m. induction s as [|c s IH]; intros n m Hle; simpl in Hle.
  - assert (n = 0) as -> by lia. assert (m = 0) as -> by lia. reflexivity.
  - destruct n as [|n].
    + destruct m as [|m]; [reflexivity|]. simpl. rewrite IH; [reflexivity|lia].
    + simpl. apply IH. lia.
Qed.

(** [with_suffix] keeps the stem of the name and puts [.cmd] after it: a
    suffix that was there is dropped. *)
Lemma with_suffix_cmd_stem fl p q :
  with_suffix fl p ".cmd" = Ok q →
  stem p ≠ ""
  ∧ q = mkpath (drv p) (root p) (removelast (tail p) ++ [stem p +:+ ".cmd"]).
Proof.
  unfold with_suffix.
  replace (pystr.contains (sep fl) ".cmd"
           || match altsep fl with
              | Some a => pystr.contains a ".cmd"
              | None => false
              end) with false by (by destruct fl).
  simpl.
  destruct (pystr.nonempty (pathlib.name p)) eqn:Hnm; simpl; [|discriminate].
  apply nonempty_true in Hnm.
  unfold suffix, suffix_of, stem, stem_of.
  destruct (pystr.rfind "." (pathlib.name p)) as [i|] eqn:Hi.
  - destruct ((0 <? i) && (i <? String.length (pathlib.name p) - 1)) eqn:Hb.
    + apply andb_true_iff in Hb as [H0%Nat.ltb_lt H1%Nat.ltb_lt].
      assert (String.length (pystr.from i (pathlib.name p))
              = String.length (pathlib.name p) - i) as Hlen
        by (apply substring_length; lia).
      assert (pystr.nonempty (pystr.from i (pathlib.name p)) = true) as Hne.
      { destruct (pystr.from i (pathlib.name p)); [simpl in Hlen; lia|done]. }
      rewrite Hne. simpl. rewrite Hlen.
      replace (String.length (pathlib.name p)
               - (String.length (pathlib.name p) - i)) with i by lia.
      intros [= <-]. split; [|reflexivity].
      unfold pystr.upto.
      destruct (pathlib.name p) as [|c nm]; [done|].
      destruct i; [lia | done].
    + simpl. by intros [= <-].
  - simpl. by intros [= <-].
Qed.

(** X8. On a Windows-family host with an absolute working directory, the
    list that [extend_paths] returns holds, for each input path in turn, an
    absolute path whose name is the stem of the input name followed by
    [.cmd]: a suffix that the input had is dropped, not kept, so the suffix
    of every returned path is [.cmd] alone. *)
Theorem X8_extended_paths_are_absolute_cmd h path_list l' :
  host_wf h →
  String.eqb (os.name h) "nt" = true →
  extend_paths h path_list = Ok l' →
  Forall2 (fun p q => is_absolute (path_flavour h) q = true
                      ∧ pathlib.name q = stem p +:+ ".cmd"
                      ∧ suffix q = ".cmd")
          path_list l'.
Proof.
  intros Hwf Hnt. unfold extend_paths. rewrite Hnt.
  intros HF%mapM_result_Forall2.
  induction HF as [|p q l k Hpq _ IH]; constructor; [|exact IH].
  destruct (with_suffix (path_flavour h) p ".cmd") as [p'|] eqn:Hp';
    [|discriminate].
  injection Hpq as <-.
  destruct (with_suffix_cmd_stem _ _ _ Hp') as (Hstem & ->).
  split; [by apply resolve_is_absolute|].
  unfold suffix. rewrite resolve_name by apply cmd_name_ordinary.
  split; [reflexivity | by apply suffix_of_cmd].
Qed.

Lemma X8_witness :
  let h := nt_host protoc_succeeds in
  let p1 := mkpath "" "" ["tools"; "protoc-gen-ts"] in
  let p2 := mkpath "C:" "\" ["proj"; "tool.exe"] in
  let p3 := mkpath "C:" "\" ["proj"; "archive.tar.gz"] in
  let q1 := mkpath "C:" "\" ["Users"; "user"; "tools"; "protoc-gen-ts.cmd"] in
  let q2 := mkpath "C:" "\" ["proj"; "tool.cmd"] in
  let q3 := mkpath "C:" "\" ["proj"; "archive.tar.cmd"] in
  host_wf h
  ∧ String.eqb (os.name h) "nt" = true
  ∧ extend_paths h [p1; p2; p3] = Ok [q1; q2; q3]
  ∧ stem p2 = "tool"
  ∧ stem p3 = "archive.tar"
  ∧ Forall2 (fun p q => is_absolute (path_flavour h) q = true
                        ∧ pathlib.name q = stem p +:+ ".cmd"
                        ∧ suffix q = ".cmd")
            [p1; p2; p3] [q1; q2; q3].
Proof.
  intros h p1 p2 p3 q1 q2 q3.
  assert (extend_paths h [p1; p2; p3] = Ok [q1; q2; q3]) as Hext
    by (vm_compute; reflexivity).
  split; [reflexivity|]. split; [reflexivity|].
  split; [exact Hext|].
  split; [vm_compute; reflexivity|]. split; [vm_compute; reflexivity|].
  exact (X8_extended_paths_are_absolute_cmd h [p1; p2; p3] [q1; q2; q3]
           eq_refl eq_refl Hext).
Defined.

Lemma with_suffix_cmd_fixed fl d r t stem :
  stem ≠ "" →
  with_suffix fl (mkpath d r (t ++ [stem +:+ ".cmd"])) ".cmd"
  = Ok (mkpath d r (t ++ [stem +:+ ".cmd"])).
Proof.
  intros Hstem. unfold with_suffix, suffix.
  rewrite name_snoc, suffix_of_cmd by assumption.
  simpl tail. rewrite removelast_snoc.
  replace (pystr.contains (sep fl) ".cmd"
           || match altsep fl with
              | Some a => pystr.contains a ".cmd"
              | None => false
              end) with false by (by destruct fl).
  assert (pystr.nonempty (stem +:+ ".cmd") = true) as ->
    by (by apply nonempty_app_r).
  simpl. unfold pystr.upto. rewrite string_length_app. simpl String.length.
  replace (String.length stem + 4 - 4) with (String.length stem) by lia.
  by rewrite substring_app_l.
Qed.

Lemma normalize_ordinary_id t : Forall ordinary t → normalize [] t = t.
Proof. intros Ht. by rewrite <- (app_nil_l t), normalize_app_ordinary. Qed.

(** On Windows, resolving a resolved path changes nothing. *)
Lemma resolve_idempotent_windows cwd p :
  is_absolute WindowsFlavour cwd = true →
  resolve WindowsFlavour cwd (resolve WindowsFlavour cwd p)
  = resolve WindowsFlavour cwd p.
Proof.
  intros Hcwd.
  pose proof (resolve_is_absolute WindowsFlavour cwd p Hcwd) as Habs.
  pose proof (resolve_clean WindowsFlavour cwd p) as Hclean.
  destruct (resolve WindowsFlavour cwd p) as [d r t] eqn:Hq.
  unfold resolve. rewrite (fullpath_absolute _ _ _ Habs). simpl in *.
  by rewrite normalize_ordinary_id.
Qed.

Lemma mapM_result_fixed {A} (f : A → result A) l :
  Forall (fun x => f x = Ok x) l → mapM f l = Ok l.
Proof.
  induction 1 as [|x l Hx _ IH]; [reflexivity|].
  by rewrite mapM_result_cons, Hx, IH.
Qed.

(** X9. [extend_paths] is idempotent: applied to a list it has returned, it
    returns that list again. A plugin path that already ends in [.cmd] and
    is already resolved is left as it is. *)
Theorem X9_extend_paths_is_idempotent h path_list l' :
  host_wf h →
  extend_paths h path_list = Ok l' →
  extend_paths h l' = Ok l'.
Proof.
  intros Hwf. unfold extend_paths.
  destruct (String.eqb (os.name h) "nt") eqn:Hnt; [|by intros [= <-]].
  unfold host_wf in Hwf. rewrite (nt_flavour h Hnt) in *.
  intros HF%mapM_result_Forall2. apply mapM_result_fixed.
  induction HF as [|p q l k Hpq _ IH]; constructor; [|exact IH].
  destruct (with_suffix WindowsFlavour p ".cmd") as [p'|] eqn:Hp';
    [|discriminate].
  injection Hpq as <-.
  destruct (with_suffix_cmd_shape _ _ _ Hp') as (stem & Hstem & ->).
  destruct (resolve_tail_snoc WindowsFlavour (cwd h) (drv p) (root p)
              (removelast (tail p)) (stem +:+ ".cmd") (cmd_name_ordinary stem))
    as [t' Ht'].
  pose proof (resolve_idempotent_windows (cwd h)
                (mkpath (drv p) (root p)
                        (removelast (tail p) ++ [stem +:+ ".cmd"])) Hwf) as Hidem.
  destruct (resolve WindowsFlavour (cwd h) _) as [d r t] eqn:Hq.
  simpl in Ht'. subst t.
  rewrite with_suffix_cmd_fixed by assumption.
  change (Ok (resolve WindowsFlavour (cwd h)
                (mkpath d r (t' ++ [stem +:+ ".cmd"])))
          = Ok (mkpath d r (t' ++ [stem +:+ ".cmd"]))).
  by rewrite Hidem.
Qed.

Lemma X9_witness :
  let h := nt_host protoc_succeeds in
  let path_list := [ mkpath "" "" ["tools"; "protoc-gen-ts"];
                     mkpath "C:" "\" ["proj"; "tool.exe"] ] in
  ∃ l',
    host_wf h
    ∧ extend_paths h path_list = Ok l'
    ∧ extend_paths h l' = Ok l'.
Proof.
  intros h path_list. eexists.
  split; [reflexivity|].
  split; [vm_compute; reflexivity|].
  eapply (X9_extend_paths_is_idempotent h path_list);
    [reflexivity | vm_compute; reflexivity].
Defined.

(** ** The default output root *)

Lemma contains_app a (s t : string) :
  pystr.contains a (s +:+ t) = pystr.contains a s || pystr.contains a t.
Proof.
  induction s as [|c s IH]; [reflexivity|].
  change (Ascii.eqb a c || pystr.contains a (s +:+ t)
          = (Ascii.eqb a c || pystr.contains a s) || pystr.contains a t).
  by rewrite IH, orb_assoc.
Qed.

Lemma replace_absent a b (s : string) :
  pystr.contains a s = false → pystr.replace a b s = s.
Proof.
  induction s as [|c s IH]; [reflexivity|]. simpl.
  intros [Hc Hs]%orb_false_iff.
  rewrite Ascii.eqb_sym, Hc. by rewrite IH.
Qed.

Lemma split_absent sep (s : string) :
  pystr.contains sep s = false → pystr.split sep s = [s].
Proof.
  induction s as [|c s IH]; [reflexivity|]. simpl.
  intros [Hc Hs]%orb_false_iff.
  rewrite Ascii.eqb_sym, Hc. by rewrite IH.
Qed.

Lemma split_first sep (c rest : string) :
  pystr.contains sep c = false →
  pystr.split sep (c +:+ String sep rest) = c :: pystr.split sep rest.
Proof.
  induction c as [|ch c IH].
  - intros _. change (pystr.split sep (String sep rest)
                      = "" :: pystr.split sep rest).
    simpl. by rewrite Ascii.eqb_refl.
  - simpl pystr.contains. intros [Hc Hs]%orb_false_iff.
    change (pystr.split sep (String ch (c +:+ String sep rest))
            = String ch c :: pystr.split sep rest).
    simpl. rewrite Ascii.eqb_sym, Hc. by rewrite IH.
Qed.

Lemma join_cons sep c c2 t :
  pystr.join sep (c :: c2 :: t) = c +:+ sep +:+ pystr.join sep (c2 :: t).
Proof. reflexivity. Qed.

Lemma split_join sep t :
  t ≠ [] →
  Forall (fun c => pystr.contains sep c = false) t →
  pystr.split sep (pystr.join (String sep "") t) = t.
Proof.
  intros Ht Hall. induction Hall as [|c t Hc Hall IH]; [done|].
  destruct t as [|c2 t].
  - by apply split_absent.
  - rewrite join_cons.
    change (String sep "" +:+ pystr.join (String sep "") (c2 :: t))
      with (String sep (pystr.join (String sep "") (c2 :: t))).
    rewrite split_first by assumption. by rewrite IH.
Qed.

Lemma contains_join a sep t :
  pystr.contains a sep = false →
  Forall (fun c => pystr.contains a c = false) t →
  pystr.contains a (pystr.join sep t) = false.
Proof.
  intros Hsep Hall. induction Hall as [|c t Hc Hall IH]; [reflexivity|].
  destruct t as [|c2 t]; [exact Hc|].
  by rewrite join_cons, !contains_app, Hc, Hsep, IH.
Qed.

Lemma lstrip_join sep t :
  Forall (fun c => pystr.nonempty c = true ∧ pystr.contains sep c = false) t →
  pystr.lstrip sep (pystr.join (String sep "") t) = pystr.join (String sep "") t.
Proof.
  intros Hall. destruct Hall as [|c t [Hne Hc] _]; [reflexivity|].
  destruct c as [|ch c]; [discriminate|].
  simpl in Hc. apply orb_false_iff in Hc as [Hch _].
  assert (∃ rest, pystr.join (String sep "") (String ch c :: t) = String ch rest)
    as [rest ->] by (destruct t; by eexists).
  simpl. by rewrite Ascii.eqb_sym, Hch.
Qed.

Lemma components_join fl t :
  forallb (component_ok fl) t = true →
  components fl (pystr.join (sep_str fl) t) = t.
Proof.
  intros Hall. rewrite forallb_forall in Hall. unfold components, sep_str.
  destruct (decide (t = [])) as [->|Ht]; [reflexivity|].
  rewrite split_join; [|exact Ht|].
  - induction t as [|c t IH]; [reflexivity|].
    assert (component_ok fl c = true) as Hc by (apply Hall; by left).
    unfold component_ok in Hc.
    repeat (apply andb_true_iff in Hc as [Hc ?]).
    rewrite filter_cons_True.
    + f_equal. destruct (decide (t = [])) as [->|Ht']; [reflexivity|].
      apply IH; [|exact Ht']. intros x Hx. apply Hall. by right.
    + split; [by apply nonempty_true|].
      intros ->. discriminate.
  - apply Forall_forall. intros c Hc%list_elem_of_In%Hall.
    unfold component_ok in Hc.
    repeat (apply andb_true_iff in Hc as [Hc ?]).
    by apply negb_true_iff.
Qed.

Lemma join_lstrip_ok fl t :
  forallb (component_ok fl) t = true →
  pystr.lstrip (sep fl) (pystr.join (sep_str fl) t) = pystr.join (sep_str fl) t.
Proof.
  intros Hall. rewrite forallb_forall in Hall. apply lstrip_join.
  apply Forall_forall. intros c Hc%list_elem_of_In%Hall.
  unfold component_ok in Hc.
  repeat (apply andb_true_iff in Hc as [Hc ?]).
  split; [assumption | by apply negb_true_iff].
Qed.

Lemma startswith_head a (s : string) :
  pystr.startswith (String a "") (String a s) = true.
Proof.
  unfold pystr.startswith. simpl.
  destruct (ascii_dec a a); [by destruct s | done].
Qed.

Lemma posix_splitroot_rooted (j : string) :
  pystr.lstrip "/" j = j → posix_splitroot (String "/" j) = ("", "/", j).
Proof.
  intros Hstrip. unfold posix_splitroot.
  rewrite (startswith_head "/" j).
  change (pystr.lstrip "/" (String "/" j)) with (pystr.lstrip "/" j).
  rewrite Hstrip.
  replace (String.length (String "/" j) - String.length j =? 2) with false;
    [reflexivity|].
  symmetry. apply Nat.eqb_neq. simpl. lia.
Qed.

(** Parsing the string of a canonical POSIX path gives the path back. *)
Lemma Path_str_posix t :
  forallb (component_ok PosixFlavour) t = true →
  Path PosixFlavour (str PosixFlavour (mkpath "" "/" t)) = mkpath "" "/" t.
Proof.
  intros Hall.
  pose proof (components_join PosixFlavour t Hall) as Hcomps.
  pose proof (join_lstrip_ok PosixFlavour t Hall) as Hstrip.
  unfold Path, parse_parts, str, anchor. simpl rev.
  set (j := pystr.join (sep_str PosixFlavour) t) in *.
  change (("" +:+ "/") +:+ j) with (String "/" j).
  cbn [pystr.nonempty parse_rev].
  unfold splitroot, norm_sep, altsep.
  rewrite (posix_splitroot_rooted j Hstrip).
  cbn [pystr.nonempty orb find_drive]. by rewrite Hcomps.
Qed.

Lemma substring_0_0 (s : string) : String.substring 0 0 s = "".
Proof. by destruct s. Qed.

Lemma windows_splitroot_drive c (j : string) :
  pystr.is_letter c = true →
  pystr.lstrip "\" j = j →
  windows_splitroot (String c (String ":" (String "\" j)))
  = (String c ":", "\", j).
Proof.
  intros Hc Hstrip.
  set (s := String c (String ":" (String "\" j))).
  assert (pystr.at1 0 s = String c "") as H0
    by (unfold pystr.at1, s; simpl; by rewrite ?substring_0_0).
  assert (pystr.at1 1 s = ":") as H1
    by (unfold pystr.at1, s; simpl; by rewrite ?substring_0_0).
  assert (pystr.at1 2 s = "\") as H2
    by (unfold pystr.at1, s; simpl; by rewrite ?substring_0_0).
  assert (pystr.upto 2 s = String c ":") as Hup
    by (unfold pystr.upto, s; simpl; by rewrite ?substring_0_0).
  assert (pystr.from 2 s = String "\" j) as Hfrom
    by (unfold pystr.from, s; simpl; by rewrite substring_all).
  unfold windows_splitroot. rewrite H0, H1.
  change ((":" =? "\")%string) with false. cbn [andb]. cbv iota beta zeta.
  rewrite H0, H1, H2, Hup, Hfrom.
  change ((":" =? "\")%string) with false.
  change ((":" =? ":")%string) with true.
  change (("\" =? "\")%string) with true.
  cbn [andb is_drive_letter]. rewrite Hc. cbv iota beta zeta.
  change (pystr.lstrip "\" (String "\" j)) with (pystr.lstrip "\" j).
  by rewrite Hstrip.
Qed.

Lemma letter_is_no_slash c :
  pystr.is_letter c = true → Ascii.eqb "/" c = false.
Proof.
  destruct c as [[] [] [] [] [] [] [] []]; vm_compute; congruence.
Qed.

(** Parsing the string of a canonical Windows path gives the path back. *)
Lemma Path_str_windows c t :
  pystr.is_letter c = true →
  forallb (component_ok WindowsFlavour) t = true →
  Path WindowsFlavour (str WindowsFlavour (mkpath (String c ":") "\" t))
  = mkpath (String c ":") "\" t.
Proof.
  intros Hc Hall.
  pose proof (components_join WindowsFlavour t Hall) as Hcomps.
  pose proof (join_lstrip_ok WindowsFlavour t Hall) as Hstrip.
  assert (pystr.contains "/" (pystr.join (sep_str WindowsFlavour) t) = false)
    as Hslash.
  { apply contains_join; [reflexivity|].
    rewrite forallb_forall in Hall.
    apply Forall_forall. intros x Hx%list_elem_of_In%Hall.
    unfold component_ok in Hx.
    repeat (apply andb_true_iff in Hx as [Hx ?]).
    by apply negb_true_iff. }
  unfold Path, parse_parts, str, anchor. simpl rev.
  set (j := pystr.join (sep_str WindowsFlavour) t) in *.
  change ((String c ":" +:+ "\") +:+ j) with (String c (String ":" (String "\" j))).
  cbn [pystr.nonempty parse_rev].
  unfold splitroot, norm_sep, altsep, sep.
  rewrite replace_absent.
  - rewrite (windows_splitroot_drive c j Hc Hstrip).
    cbn [pystr.nonempty orb]. by rewrite Hcomps.
  - change (Ascii.eqb "/" c
            || (Ascii.eqb "/" ":" || (Ascii.eqb "/" "\" || pystr.contains "/" j))
            = false).
    by rewrite (letter_is_no_slash c Hc), Hslash.
Qed.

Lemma canonical_cases fl p :
  canonical fl p = true →
  forallb (component_ok fl) (tail p) = true
  ∧ match fl with
    | PosixFlavour => p = mkpath "" "/" (tail p)
    | WindowsFlavour =>
        ∃ c, pystr.is_letter c = true ∧ p = mkpath (String c ":") "\" (tail p)
    end.
Proof.
  unfold canonical. intros [Hall Hanchor]%andb_true_iff.
  split; [exact Hall|]. destruct p as [d r t]. simpl in *.
  destruct fl.
  - apply andb_true_iff in Hanchor as [->%String.eqb_eq ->%String.eqb_eq].
    reflexivity.
  - apply andb_true_iff in Hanchor as [->%String.eqb_eq Hd].
    destruct d as [|c [|colon [|]]]; try discriminate.
    apply andb_true_iff in Hd as [->%Ascii.eqb_eq Hc].
    by exists c.
Qed.

(** The string of a canonical path parses back to the path. *)
Lemma Path_str_canonical fl p :
  canonical fl p = true → Path fl (str fl p) = p.
Proof.
  intros [Hall Hp]%canonical_cases. destruct fl.
  - rewrite Hp. by apply Path_str_posix.
  - destruct Hp as (c & Hc & Hp). rewrite Hp. by apply Path_str_windows.
Qed.

Lemma canonical_is_absolute fl p :
  canonical fl p = true → is_absolute fl p = true.
Proof.
  intros [_ Hp]%canonical_cases. destruct fl.
  - by rewrite Hp.
  - destruct Hp as (c & _ & ->). reflexivity.
Qed.

(** X10. On a host whose working directory is canonical (rooted at [/] on
    POSIX, at the root of a lettered drive on Windows, which leaves out a
    working directory on a network share), the default of [-o], the string
    of the working directory, parses back to the working directory: without
    [-o] the output root is the working directory itself, and all four paths
    handed to the compiler are absolute. *)
Theorem X10_default_root_is_the_working_directory h :
  canonical (path_flavour h) (cwd h) = true →
  let fl := path_flavour h in
  ∃ l, main_locals h (parse_args h None) = Ok l
       ∧ out (parse_args h None) = str fl (cwd h)
       ∧ root_path l = cwd h
       ∧ Forall (fun p => is_absolute fl p = true)
                [ts_plugin_path l; grpc_plugin_path l; ts_path l; src_path l].
Proof.
  intros Hcan fl. subst fl.
  pose proof (canonical_is_absolute _ _ Hcan) as Hwf.
  assert (Path (path_flavour h) (out (parse_args h None)) = cwd h) as Hroot
    by (by apply Path_str_canonical).
  destruct (main_locals_ok h (parse_args h None)) as [l Hl].
  exists l. split; [exact Hl|]. split; [reflexivity|].
  assert (Forall (fun p => is_absolute (path_flavour h) p = true)
            [ts_plugin_path l; grpc_plugin_path l; ts_path l; src_path l])
    as Habs.
  { apply (compiler_paths_absolute h (parse_args h None) l Hwf Hl).
    right. by rewrite Hroot. }
  pose proof (main_locals_eq h (parse_args h None)) as Heq.
  cbv zeta in Heq. rewrite Hl, Hroot in Heq. injection Heq as Hrec.
  split; [by rewrite Hrec | exact Habs].
Qed.

Lemma X10_witness :
  let h := nt_host protoc_succeeds in
  canonical (path_flavour h) (cwd h) = true
  ∧ ∃ l, main_locals h (parse_args h None) = Ok l
         ∧ out (parse_args h None) = "C:\Users\user"
         ∧ root_path l = cwd h
         ∧ Forall (fun p => is_absolute WindowsFlavour p = true)
                  [ts_plugin_path l; grpc_plugin_path l; ts_path l; src_path l].
Proof.
  intros h.
  assert (canonical (path_flavour h) (cwd h) = true) as Hcan
    by (vm_compute; reflexivity).
  split; [exact Hcan|].
  exact (X10_default_root_is_the_working_directory h Hcan).
Defined.

(** ** When the compiler paths are absolute *)

(** X11. On a Windows-family host, and on any host when the output root is
    absolute, all four paths handed to the compiler (the two plugin paths,
    the generated-output path and the source path) are absolute. *)
Theorem X11_compiler_paths_absolute_when h args l :
  host_wf h →
  main_locals h args = Ok l →
  String.eqb (os.name h) "nt" = true
  ∨ is_absolute (path_flavour h) (Path (path_flavour h) (out args)) = true →
  Forall (fun p => is_absolute (path_flavour h) p = true)
         [ts_plugin_path l; grpc_plugin_path l; ts_path l; src_path l].
Proof. apply compiler_paths_absolute. Qed.

Lemma X11_witness :
  let h := nt_host protoc_succeeds in
  let args := mkargs "proj" in
  ∃ l,
    host_wf h
    ∧ main_locals h args = Ok l
    ∧ (String.eqb (os.name h) "nt" = true
       ∨ is_absolute (path_flavour h) (Path (path_flavour h) (out args)) = true)
    ∧ Forall (fun p => is_absolute (path_flavour h) p = true)
             [ts_plugin_path l; grpc_plugin_path l; ts_path l; src_path l].
Proof.
  intros h args. eexists.
  split; [reflexivity|].
  split; [exact (main_locals_eq h args)|].
  split; [by left|].
  apply (X11_compiler_paths_absolute_when h args _ eq_refl
           (main_locals_eq h args)).
  by left.
Defined.

(** X12. On a host that is not of the Windows family the plugin paths are
    joined under the output root as it was given: each of them is absolute
    exactly when the output root is, and its string is never changed by the
    working directory. *)
Theorem X12_plugin_paths_follow_the_root_off_windows h args l :
  String.eqb (os.name h) "nt" = false →
  main_locals h args = Ok l →
  let fl := path_flavour h in
  is_absolute fl (ts_plugin_path l) = is_absolute fl (root_path l)
  ∧ is_absolute fl (grpc_plugin_path l) = is_absolute fl (root_path l)
  ∧ ts_plugin_path l
    = mkpath (drv (root_path l)) (root (root_path l))
             (tail (root_path l) ++ ["node_modules"; ".bin"; "protoc-gen-ts"])
  ∧ grpc_plugin_path l
    = mkpath (drv (root_path l)) (root (root_path l))
             (tail (root_path l)
              ++ ["node_modules"; ".bin"; "grpc_tools_node_protoc_plugin"]).
Proof.
  intros Hnt Hl fl.
  pose proof (main_locals_eq h args) as Heq. cbv zeta in Heq.
  rewrite Hl, Hnt in Heq. injection Heq as Hrec. rewrite Hrec.
  cbn [ts_plugin_path grpc_plugin_path root_path].
  rewrite !joinpath_plain by auto with plain.
  repeat split.
Qed.

Lemma X12_witness :
  let h := posix_host protoc_succeeds in
  let args := mkargs "proj" in
  ∃ l,
    String.eqb (os.name h) "nt" = false
    ∧ main_locals h args = Ok l
    ∧ is_absolute PosixFlavour (ts_plugin_path l)
      = is_absolute PosixFlavour (root_path l)
    ∧ is_absolute PosixFlavour (grpc_plugin_path l)
      = is_absolute PosixFlavour (root_path l)
    ∧ ts_plugin_path l
      = mkpath (drv (root_path l)) (root (root_path l))
               (tail (root_path l) ++ ["node_modules"; ".bin"; "protoc-gen-ts"])
    ∧ grpc_plugin_path l
      = mkpath (drv (root_path l)) (root (root_path l))
               (tail (root_path l)
                ++ ["node_modules"; ".bin"; "grpc_tools_node_protoc_plugin"]).
Proof.
  intros h args. eexists.
  split; [reflexivity|].
  split; [exact (main_locals_eq h args)|].
  exact (X12_plugin_paths_follow_the_root_off_windows h args _ eq_refl
           (main_locals_eq h args)).
Defined.
